(** * The LNS primal heuristic of SCIP (src/scip/heur_lns.c)

    A shallow embedding of the adaptive large-neighborhood-search heuristic:
    neighborhood statistics and fixing rates, the epsilon-greedy and EXP3
    bandit selectors, the budget planner [determineLimits], the objective
    cutoff installed by [setupSubScip], the three variable-fixing callbacks
    (RENS, RINS, mutation), the solution-transferring event handler and the
    execution callback [heurExecLns].

    Conventions of the embedding.
    - [SCIP_Real] (a C double) is the rational [Q] that the double holds;
      comparisons are the exact ones.  Where a result of the source depends
      on the rounding of a double operation (the budget of
      [determineLimits], the reward of [epsRewardLns], the running sum of
      [expThreeSelectAction]) the rounding is written out with
      [double_round], the rounding to the nearest binary64 number with ties
      to even; overflow to infinity is outside the model.  The other sums and
      products are the exact ones.
    - [int] and [SCIP_Longint] are [Z].  The [int] product of [epsRewardLns]
      is written with the wrap-around of a 32-bit two's complement machine
      ([int_wrap]); the counters are not wrapped.
    - A C array is a [list]; a write through an index is [list_set], a read
      is [nth] with the null value as default.
    - Pointers to variables are [nat] identifiers.
    - State that a C function mutates through a pointer is returned by the
      Rocq function.
    - An [assert] of the source is a precondition of the C function and is
      not executed by the model, except where a definition says so. *)

From Stdlib Require Import ZArith QArith Qround Qabs Qminmax Qpower List Permutation Bool String Lia Lqa.
Import ListNotations.

Open Scope Z_scope.

(** ** Numbers *)

Definition SCIP_Real := Q.
Definition SCIP_Longint := Z.

(** [a < b] on doubles. *)
Definition Qlt_bool (a b : Q) : bool := negb (Qle_bool b a).

(** The C conversion [(SCIP_Longint) x] and [(int) x]: the fractional part
    is discarded, that is, rounding is toward zero. *)
Definition real_to_longint (x : Q) : Z := Z.quot (Qnum x) (Zpos (Qden x)).

(** *** Rounding of doubles

    A C double is a binary64 number: 53 significant bits, the smallest
    normal number is [2 ^ (-1022)], and the result of an arithmetic
    operation is the exact result rounded to the nearest double, ties to the
    even significand. *)

Definition DBL_MANT_DIG : Z := 53.
Definition DBL_MIN_EXP : Z := -1021.

(** The nearest integer, ties to the even one. *)
Definition round_half_even (q : Q) : Z :=
  let f := Qfloor q in
  match Qcompare (q - inject_Z f) (1 # 2) with
  | Lt => f
  | Gt => f + 1
  | Eq => if Z.even f then f else f + 1
  end.

(** The [e] with [2 ^ e <= q < 2 ^ (e + 1)], for a positive [q]. *)
Definition binade (q : Q) : Z :=
  let e := Z.log2 (Qnum q) - Z.log2 (Zpos (Qden q)) in
  if Qle_bool (2 ^ e) q then e else e - 1.

(** The distance of neighbouring doubles around a positive [q]; below the
    smallest normal number it is that of the subnormal numbers. *)
Definition double_ulp (q : Q) : Q :=
  (2 ^ (Z.max (binade q) (DBL_MIN_EXP - 1) - (DBL_MANT_DIG - 1)))%Q.

Definition double_round_pos (q : Q) : Q :=
  (inject_Z (round_half_even (q / double_ulp q)) * double_ulp q)%Q.

(** The double nearest to [q]. *)
Definition double_round (q : Q) : Q :=
  match Qcompare q 0 with
  | Eq => 0%Q
  | Gt => double_round_pos q
  | Lt => (- double_round_pos (- q))%Q
  end.

(** The double operations [a * b], [a - b], [a / b], [a + b], and the
    conversion of an integer to a double. *)
Definition double_mult (a b : Q) : Q := double_round (a * b).
Definition double_minus (a b : Q) : Q := double_round (a - b).
Definition double_div (a b : Q) : Q := double_round (a / b).
Definition double_plus (a b : Q) : Q := double_round (a + b).
Definition int_to_real (z : Z) : Q := double_round (inject_Z z).

(** The value of an [int] expression on a 32-bit two's complement
    machine. *)
Definition int_wrap (z : Z) : Z := (z + 2 ^ 31) mod 2 ^ 32 - 2 ^ 31.

(** [MAX] and [MIN] of scip/def.h:
    [#define MAX(x,y) ((x) >= (y) ? (x) : (y))],
    [#define MIN(x,y) ((x) <= (y) ? (x) : (y))]. *)
Definition MAX (x y : Q) : Q := if Qle_bool y x then x else y.
Definition MIN (x y : Q) : Q := if Qle_bool x y then x else y.

(** Array write [a[i] = v]; an index outside the array (undefined behaviour
    in C) leaves the list as it is. *)
Fixpoint list_set {A : Type} (l : list A) (i : nat) (v : A) : list A :=
  match l, i with
  | [], _ => []
  | _ :: t, O => v :: t
  | h :: t, S i' => h :: list_set t i' v
  end.

(** ** Constants of heur_lns.c *)

Definition NNEIGHBORHOODS : Z := 3.
Definition DEFAULT_NODESQUOT : Q := (5 # 100)%Q.
Definition DEFAULT_NODESOFFSET : Z := 500.
Definition DEFAULT_NSOLSLIM : Z := 3.
Definition DEFAULT_MINNODES : Z := 10.
Definition DEFAULT_MINIMPROVE : Q := (2 # 100)%Q.
Definition DEFAULT_MAXNODES : Z := 5000.
Definition LPLIMFAC : Q := 2%Q.
Definition DEFAULT_INITSEED : Z := 113.
Definition MUTATIONSEED : Z := 121.
Definition DEFAULT_BESTSOLWEIGHT : Z := 3.

(** ** Return codes and results (scip/type_retcode.h, scip/type_result.h) *)

Inductive SCIP_RETCODE : Type :=
| SCIP_OKAY
| SCIP_ERROR.

Inductive SCIP_RESULT : Type :=
| SCIP_DIDNOTRUN
| SCIP_DELAYED
| SCIP_DIDNOTFIND
| SCIP_FOUNDSOL.

(** ** Neighborhood statistics and fixing rate *)

(** [struct NH_Stats]. *)
Record NH_STATS : Type := mkNH_STATS {
  usednodes : SCIP_Longint;
  lpiterations : SCIP_Longint;
  totalgapclosed : SCIP_Real;
  nruns : Z;
  nrunsbestsol : Z;
  nsolsfound : Z;
  nbestsolsfound : Z;
  presolrounds : Z;
  totalnbinfixings : Z;
  totalnintfixings : Z;
  totalnimplintfixings : Z;
  totalncontfixings : Z;
  totalnfixings : Z
}.

(** [struct NH_FixingRate]. *)
Record NH_FIXINGRATE : Type := mkNH_FIXINGRATE {
  minfixingrate : SCIP_Real;
  targetfixingrate : SCIP_Real;
  maxfixingrate : SCIP_Real
}.

(** [fixingRateReset]. *)
Definition fixingRateReset (fixingrate : NH_FIXINGRATE) : NH_FIXINGRATE :=
  let fixingrate := mkNH_FIXINGRATE 0%Q (targetfixingrate fixingrate) (maxfixingrate fixingrate) in
  let fixingrate := mkNH_FIXINGRATE (minfixingrate fixingrate) (targetfixingrate fixingrate) (5 # 10)%Q in
  mkNH_FIXINGRATE (minfixingrate fixingrate) (25 # 100)%Q (maxfixingrate fixingrate).

(** [neighborhoodStatsReset]: the twelve assignments of the source, in the
    order of the source.  The field [totalnintfixings] has no assignment
    there and keeps its value. *)
Definition neighborhoodStatsReset (stats : NH_STATS) : NH_STATS :=
  {| lpiterations := 0;
     nbestsolsfound := 0;
     nruns := 0;
     nrunsbestsol := 0;
     nsolsfound := 0;
     presolrounds := 0;
     totalgapclosed := 0%Q;
     totalnbinfixings := 0;
     totalncontfixings := 0;
     totalnimplintfixings := 0;
     totalnfixings := 0;
     usednodes := 0;
     totalnintfixings := totalnintfixings stats |}.

(** ** The outer SCIP instance, as far as the heuristic reads or writes it *)

Definition SCIP_VAR := nat.

(** The null pointer. *)
Definition NULLVAR : SCIP_VAR := O.

(** A primal solution: its origin and its value for each variable. *)
Record SCIP_SOL : Type := mkSCIP_SOL {
  sol_origin_original : bool;
  sol_val : SCIP_VAR -> SCIP_Real
}.

Record SCIP : Type := mkSCIP {
  (* problem variables, ordered binaries, integers, implicit integers,
     continuous; this is the array SCIPgetVarsData hands out *)
  prob_vars : list SCIP_VAR;
  prob_nbinvars : Z;
  prob_nintvars : Z;
  (* LP at the current node *)
  hasCurrentNodeLP : bool;
  lpsolstat_optimal : bool;
  lpsolval : SCIP_VAR -> SCIP_Real;
  (* primal side *)
  bestsol : option SCIP_SOL;
  sols : list SCIP_SOL;
  upperbound : SCIP_Real;
  lowerbound : SCIP_Real;
  nbestsolsfound_total : SCIP_Longint;
  nsolsfound_total : SCIP_Longint;
  (* numerics *)
  num_infinity : SCIP_Real;
  num_epsilon : SCIP_Real;
  num_sumepsilon : SCIP_Real;
  (* limits and usage *)
  limits_time : SCIP_Real;
  limits_memory : SCIP_Real;
  solvingtime : SCIP_Real;
  memused : SCIP_Longint;
  memexternestim : SCIP_Longint;
  nnodes : SCIP_Longint
}.

Definition SCIPgetNVars (scip : SCIP) : Z := Z.of_nat (List.length (prob_vars scip)).
Definition SCIPgetUpperbound (scip : SCIP) : Q := upperbound scip.
Definition SCIPgetLowerbound (scip : SCIP) : Q := lowerbound scip.
Definition SCIPsumepsilon (scip : SCIP) : Q := num_sumepsilon scip.
Definition SCIPgetNBestSolsFound (scip : SCIP) : Z := nbestsolsfound_total scip.
Definition SCIPgetNSolsFound (scip : SCIP) : Z := nsolsfound_total scip.
Definition SCIPgetBestSol (scip : SCIP) : option SCIP_SOL := bestsol scip.

(** [SCIPisInfinity(scip, val)]: [val >= infinity]. *)
Definition SCIPisInfinity (scip : SCIP) (val : Q) : bool :=
  Qle_bool (num_infinity scip) val.

(** [SCIPisIntegral(scip, val)]: [val - floor(val + eps) <= eps]
    (the macro EPSISINT of scip/def.h). *)
Definition SCIPisIntegral (scip : SCIP) (val : Q) : bool :=
  Qle_bool (val - inject_Z (Qfloor (val + num_epsilon scip)))%Q (num_epsilon scip).

(** [SCIPisEQ(scip, a, b)]: [|a - b| <= eps] (the macro EPSEQ). *)
Definition SCIPisEQ (scip : SCIP) (a b : Q) : bool :=
  Qle_bool (Qabs (a - b)%Q) (num_epsilon scip).

(** [SCIPgetSolVal(scip, sol, var)]; a null [sol] reads the LP solution. *)
Definition SCIPgetSolVal (scip : SCIP) (sol : option SCIP_SOL) (var : SCIP_VAR) : Q :=
  match sol with
  | None => lpsolval scip var
  | Some s => sol_val s var
  end.

(** ** Outside collaborators

    The pseudo-random generator (scip/misc.c) and the nested solver are not
    part of heur_lns.c.  They are interfaces here; every definition below is
    generic in them. *)

(** [SCIPrandomGetReal(rng, min, max)] and [SCIPrandomGetInt(rng, min, max)]:
    the value drawn and the generator after the draw. *)
Class RandNumGen (RNG : Type) : Type := {
  SCIPrandomGetReal : RNG -> Q -> Q -> Q * RNG;
  SCIPrandomGetInt : RNG -> Z -> Z -> Z * RNG
}.

(** The contract of [SCIPrandomGetInt]: the draw lies in [[min, max]]. *)
Definition RandomGetInt_in_range {RNG : Type} {rngops : RandNumGen RNG} : Prop :=
  forall (rng : RNG) (lo hi : Z), lo <= hi ->
    lo <= fst (SCIPrandomGetInt rng lo hi) <= hi.

(** Parameter values of a SCIP instance. *)
Inductive SCIP_PARAMVAL : Type :=
| ParamBool (b : bool)
| ParamInt (i : Z)
| ParamLongint (l : Z)
| ParamReal (r : Q).

(** Settings that are applied through a setter of their own. *)
Inductive SCIP_SETTING : Type :=
| SubscipsOff
| SeparatingOff
| PresolvingFast.

(** What [setupSubScip] asks a sub-SCIP about itself. *)
Record SUBSCIP_PLUGINS : Type := mkSUBSCIP_PLUGINS {
  findNodesel : string -> bool;
  findBranchrule : string -> bool;
  findConshdlr : string -> bool;
  isParamFixed : string -> bool
}.

(** Counters of a sub-SCIP after its solve. *)
Record SUBSCIP_STATS : Type := mkSUBSCIP_STATS {
  sub_nlpiterations : SCIP_Longint;
  sub_nnodes : SCIP_Longint;
  sub_nbestsolsfound : SCIP_Longint;
  sub_nsolsfound : SCIP_Longint
}.

(** The nested instance: the settings written into it (latest first), the
    objective limit, and its counters. *)
Record SUBSCIP : Type := mkSUBSCIP {
  sub_plugins : SUBSCIP_PLUGINS;
  sub_params : list (string * SCIP_PARAMVAL);
  sub_settings : list SCIP_SETTING;
  sub_objlimit : option SCIP_Real;
  sub_stats : SUBSCIP_STATS
}.

Definition SCIPsetParam (subscip : SUBSCIP) (name : string) (v : SCIP_PARAMVAL) : SUBSCIP :=
  mkSUBSCIP (sub_plugins subscip) ((name, v) :: sub_params subscip)
            (sub_settings subscip) (sub_objlimit subscip) (sub_stats subscip).

Definition SCIPapplySetting (subscip : SUBSCIP) (s : SCIP_SETTING) : SUBSCIP :=
  mkSUBSCIP (sub_plugins subscip) (sub_params subscip)
            (s :: sub_settings subscip) (sub_objlimit subscip) (sub_stats subscip).

Definition SCIPsetObjlimit (subscip : SUBSCIP) (objlimit : Q) : SUBSCIP :=
  mkSUBSCIP (sub_plugins subscip) (sub_params subscip)
            (sub_settings subscip) (Some objlimit) (sub_stats subscip).

(** The counters of the nested instance.  The source reads the solution
    counters of both instances through [SCIPgetNBestSolsFound] and
    [SCIPgetNSolsFound]; the two instances have two types here, hence the
    two names. *)
Definition SCIPgetNLPIterations (subscip : SUBSCIP) : Z := sub_nlpiterations (sub_stats subscip).
Definition SCIPgetNNodes (subscip : SUBSCIP) : Z := sub_nnodes (sub_stats subscip).
Definition SCIPsubGetNBestSolsFound (subscip : SUBSCIP) : Z := sub_nbestsolsfound (sub_stats subscip).
Definition SCIPsubGetNSolsFound (subscip : SUBSCIP) : Z := sub_nsolsfound (sub_stats subscip).

(** Events a sub-SCIP raises while it solves, with what the handler reads
    at that moment: the values of the new best solution at the sub-variables
    ([SCIPgetSolVals]) and the LP counter ([SCIPgetNLPs]). *)
Inductive SCIP_EVENT : Type :=
| SCIP_EVENTTYPE_BESTSOLFOUND (subsolvals : list SCIP_Real)
| SCIP_EVENTTYPE_LPSOLVED (nlps : SCIP_Longint)
| SCIP_EVENTTYPE_OTHER.

(** The calls of [heurExecLns] into the framework that are wrapped in
    [SCIP_CALL]: each of them can fail, and [heurExecLns] then returns the
    failure at once.  [CALL_setupSubScip] stands for the parameter setters
    inside [setupSubScip], whose failure [setupSubScip] forwards. *)
Inductive FRAMEWORK_CALL : Type :=
| CALL_SCIPgetVarsData
| CALL_SCIPallocBufferArray
| CALL_SCIPcreate
| CALL_SCIPhashmapCreate
| CALL_SCIPcopyLargeNeighborhoodSearch
| CALL_setupSubScip
| CALL_SCIPincludeEventhdlrBasic
| CALL_SCIPtransformProb
| CALL_SCIPcatchEvent
| CALL_SCIPfree.

(** The nested solver and the outer solution store.
    - [SCIPcopyLargeNeighborhoodSearch scip name varbuf valbuf nfixings]:
      the reduced clone.
    - [SCIPsolve subscip]: the events raised during the run, in order, and
      the sub-SCIP after the run.  The source wraps this call in
      [SCIP_CALL_ABORT]: a failure ends the process and is no return of
      [heurExecLns].
    - [SCIPtrySolFree scip sol]: the outer instance after the candidate was
      submitted, and whether it was stored.
    - [SCIPcallRetcode call scip]: the return code of the framework call
      [call] made in the outer state [scip]. *)
Class SubSolver : Type := {
  SCIPcopyLargeNeighborhoodSearch :
    SCIP -> string -> list SCIP_VAR -> list SCIP_Real -> Z -> SUBSCIP;
  SCIPsolve : SUBSCIP -> list SCIP_EVENT * SUBSCIP;
  SCIPtrySolFree : SCIP -> SCIP_SOL -> SCIP * bool;
  SCIPcallRetcode : FRAMEWORK_CALL -> SCIP -> SCIP_RETCODE
}.

(** A sequence of [SCIP_CALL]s in the outer state [scip]: the first return
    code that is not [SCIP_OKAY], or [SCIP_OKAY] when every call succeeds. *)
Fixpoint SCIP_CALLs {solver : SubSolver} (calls : list FRAMEWORK_CALL) (scip : SCIP)
  : SCIP_RETCODE :=
  match calls with
  | [] => SCIP_OKAY
  | call :: rest =>
      match SCIPcallRetcode call scip with
      | SCIP_OKAY => SCIP_CALLs rest scip
      | SCIP_ERROR => SCIP_ERROR
      end
  end.

(** [struct SolveLimits]. *)
Record SOLVELIMITS : Type := mkSOLVELIMITS {
  nodelimit : SCIP_Longint;
  memorylimit : SCIP_Real;
  timelimit : SCIP_Real
}.

(** [setLimits]. *)
Definition setLimits (subscip : SUBSCIP) (solvelimits : SOLVELIMITS) : SUBSCIP :=
  let subscip := SCIPsetParam subscip "limits/nodes" (ParamLongint (nodelimit solvelimits)) in
  let subscip := SCIPsetParam subscip "limits/time" (ParamReal (timelimit solvelimits)) in
  SCIPsetParam subscip "limits/memory" (ParamReal (memorylimit solvelimits)).

Section Lns.

Context {RNG : Type} {rngops : RandNumGen RNG} {solver : SubSolver}.

(** ** Data structures of the heuristic *)

(** [struct data_mutation]. *)
Record DATA_MUTATION : Type := mkDATA_MUTATION {
  mutation_rng : RNG
}.

(** The four output arguments of a variable-fixing callback: the two
    buffers, [*nfixings] and [*success]. *)
Record FIXINGS : Type := mkFIXINGS {
  varbuf : list SCIP_VAR;
  valbuf : list SCIP_Real;
  nfixings : Z;
  success : bool
}.

(** [DECL_VARFIXINGS].  A callback receives the outer instance and the
    neighborhood; of the neighborhood it is handed the fixing rate and the
    private data, which is all that the callbacks of this file touch.  It
    returns the return code and everything it may have written. *)
Definition DECL_VARFIXINGS : Type :=
  SCIP -> NH_FIXINGRATE -> option DATA_MUTATION -> FIXINGS ->
  SCIP_RETCODE * (SCIP * option DATA_MUTATION * FIXINGS).

(** [DECL_CHANGESUBSCIP], [DECL_SETUPSUBSCIP], [DECL_NHINIT], [DECL_NHEXIT]
    are stored but never called by [heurExecLns]; only their presence is
    kept. *)
Record NH : Type := mkNH {
  name : string;
  fixingrate : NH_FIXINGRATE;
  stats : NH_STATS;
  varfixings : option DECL_VARFIXINGS;
  has_changesubscip : bool;
  has_setupsubscip : bool;
  has_nhinit : bool;
  has_nhexit : bool;
  active : bool;
  data_mutation : option DATA_MUTATION
}.

Definition NH_set_stats (neighborhood : NH) (s : NH_STATS) : NH :=
  mkNH (name neighborhood) (fixingrate neighborhood) s (varfixings neighborhood)
       (has_changesubscip neighborhood) (has_setupsubscip neighborhood)
       (has_nhinit neighborhood) (has_nhexit neighborhood) (active neighborhood)
       (data_mutation neighborhood).

Definition NH_set_data (neighborhood : NH) (d : option DATA_MUTATION) : NH :=
  mkNH (name neighborhood) (fixingrate neighborhood) (stats neighborhood)
       (varfixings neighborhood)
       (has_changesubscip neighborhood) (has_setupsubscip neighborhood)
       (has_nhinit neighborhood) (has_nhexit neighborhood) (active neighborhood) d.

(** [struct EpsGreedy].  The reward callback, the number-of-choices callback
    and the user pointer of the C struct are arguments of
    [epsGreedySelect]. *)
Record EPSGREEDY : Type := mkEPSGREEDY {
  eps : SCIP_Real;
  epsgreedy_rng : RNG
}.

(** [struct expThree]. *)
Record EXPTHREE : Type := mkEXPTHREE {
  nactions : Z;
  ndraws : Z;
  probabilities : list SCIP_Real;
  cumulativegain : list SCIP_Real;
  exp3_rng : option RNG;
  initseed : Z
}.

(** [struct SCIP_HeurData]. *)
Record SCIP_HEURDATA : Type := mkSCIP_HEURDATA {
  neighborhoods : list NH;
  epsgreedynh : EPSGREEDY;
  exp3 : option EXPTHREE;
  nodesoffset : SCIP_Longint;
  maxnodes : SCIP_Longint;
  minnodes : SCIP_Longint;
  heur_usednodes : SCIP_Longint;
  nodesquot : SCIP_Real;
  minimprove : SCIP_Real;
  lplimfac : SCIP_Real;
  nneighborhoods : Z;
  nsolslim : Z
}.

(** The heuristic plugin: its data and the number of calls so far. *)
Record SCIP_HEUR : Type := mkSCIP_HEUR {
  SCIPheurGetData : SCIP_HEURDATA;
  SCIPheurGetNCalls : SCIP_Longint
}.

(** [struct SCIP_EventData]. *)
Record SCIP_EVENTDATA : Type := mkSCIP_EVENTDATA {
  ev_nodelimit : SCIP_Longint;
  ev_lplimfac : SCIP_Real
}.

(** ** Epsilon greedy *)

(** The loop [for( j = 1; j < nchoices; ++j )] of [epsGreedySelect], with
    [n] iterations left. *)
Fixpoint epsGreedyLoop (epsreward : Z -> Q) (n : nat) (j : Z) (i : Z) (maxreward : Q) : Z :=
  match n with
  | O => i
  | S n' =>
      let reward := epsreward j in
      if Qlt_bool maxreward reward
      then epsGreedyLoop epsreward n' (j + 1) j reward
      else epsGreedyLoop epsreward n' (j + 1) i maxreward
  end.

(** [epsGreedySelect]: the selection [*i] and the selector after the draws. *)
Definition epsGreedySelect {U : Type} (epsnchoices : U -> Z) (epsreward : U -> Z -> Q)
    (userptr : U) (epsgreedy : EPSGREEDY) : Z * EPSGREEDY :=
  let nchoices := epsnchoices userptr in
  if nchoices =? 0 then (-1, epsgreedy)
  else
    let '(rand, rng) := SCIPrandomGetReal (epsgreedy_rng epsgreedy) 0%Q 1%Q in
    if Qle_bool rand (eps epsgreedy)
    then
      let maxreward := epsreward userptr 0 in
      (epsGreedyLoop (epsreward userptr) (Z.to_nat (nchoices - 1)) 1 0 maxreward,
       mkEPSGREEDY (eps epsgreedy) rng)
    else
      let '(i, rng) := SCIPrandomGetInt rng 0 (nchoices - 1) in
      (i, mkEPSGREEDY (eps epsgreedy) rng).

(** [epsNChoicesLns]. *)
Definition epsNChoicesLns (heurdata : SCIP_HEURDATA) : Z := nneighborhoods heurdata.

(** The neighborhood used where an index is outside the array. *)
Definition NH_null : NH :=
  mkNH EmptyString (mkNH_FIXINGRATE 0%Q 0%Q 0%Q)
       (mkNH_STATS 0 0 0%Q 0 0 0 0 0 0 0 0 0 0) None false false false false false None.

(** [epsRewardLns].  The product [nruns * DEFAULT_BESTSOLWEIGHT] is an
    [int] product, converted to a double for [MAX]; the quotient is a double
    quotient. *)
Definition epsRewardLns (heurdata : SCIP_HEURDATA) (i : Z) : Q :=
  let neighborhood := nth (Z.to_nat i) (neighborhoods heurdata) NH_null in
  let numerator := int_to_real (nrunsbestsol (stats neighborhood)) in
  let denominator :=
    MAX 1%Q (int_to_real (int_wrap (nruns (stats neighborhood) * DEFAULT_BESTSOLWEIGHT))) in
  double_div numerator denominator.

(** ** EXP3 *)

(** [expThreeUpdate].  The locals [eta] and [factor] are computed from
    [ndraws] and [nactions] and never used; the one statement with an effect
    is [exp3->cumulativegain[i] += gain].  The assertions ask for
    [0 <= i < nactions] and [ndraws > 0]. *)
Definition expThreeUpdate (exp3 : EXPTHREE) (gain : Q) (i : Z) : EXPTHREE :=
  mkEXPTHREE (nactions exp3) (ndraws exp3) (probabilities exp3)
    (list_set (cumulativegain exp3) (Z.to_nat i)
       (nth (Z.to_nat i) (cumulativegain exp3) 0%Q + gain)%Q)
    (exp3_rng exp3) (initseed exp3).

(** The loop of [expThreeSelectAction]: the index at which it stops.  The
    sum [psum += probabilities[i]] is a double sum. *)
Fixpoint expThreeSelectLoop (probs : list Q) (rand : Q) (psum : Q) (i : Z) : Z :=
  match probs with
  | [] => i
  | p :: rest =>
      let psum := double_plus psum p in
      if Qle_bool rand psum then i else expThreeSelectLoop rest rand psum (i + 1)
  end.

(** [expThreeSelectAction]; it needs a generator, which [expThreeReset]
    always installs. *)
Definition expThreeSelectAction (exp3 : EXPTHREE) : option (Z * EXPTHREE) :=
  match exp3_rng exp3 with
  | None => None
  | Some rng =>
      let '(rand, rng) := SCIPrandomGetReal rng 0%Q 1%Q in
      let action :=
        expThreeSelectLoop (firstn (Z.to_nat (nactions exp3)) (probabilities exp3)) rand 0%Q 0 in
      Some (action,
            mkEXPTHREE (nactions exp3) (ndraws exp3 + 1) (probabilities exp3)
                       (cumulativegain exp3) (Some rng) (initseed exp3))
  end.

(** ** Statistics of one run *)

(** [initNeighborhoodStatsRun]. *)
Definition initNeighborhoodStatsRun (scip : SCIP) (neighborhood : NH) : NH :=
  let s := stats neighborhood in
  NH_set_stats neighborhood
    (mkNH_STATS (usednodes s) (lpiterations s) (totalgapclosed s) (nruns s) (nrunsbestsol s)
       (nsolsfound s - SCIPgetNSolsFound scip)
       (nbestsolsfound s - SCIPgetNBestSolsFound scip)
       (presolrounds s) (totalnbinfixings s) (totalnintfixings s)
       (totalnimplintfixings s) (totalncontfixings s) (totalnfixings s)).

(** [updateNeighborhoodStats]. *)
Definition updateNeighborhoodStats (scip : SCIP) (neighborhood : NH) (subscip : SUBSCIP) : NH :=
  let s := stats neighborhood in
  NH_set_stats neighborhood
    (mkNH_STATS
       (usednodes s + SCIPgetNNodes subscip)
       (lpiterations s + SCIPgetNLPIterations subscip)
       (totalgapclosed s)
       (nruns s + 1)
       (if SCIPsubGetNBestSolsFound subscip >? 0 then nrunsbestsol s + DEFAULT_BESTSOLWEIGHT
        else if SCIPsubGetNSolsFound subscip >? 0 then nrunsbestsol s + 1
        else nrunsbestsol s)
       (nsolsfound s + SCIPgetNSolsFound scip)
       (nbestsolsfound s + SCIPgetNBestSolsFound scip)
       (presolrounds s) (totalnbinfixings s) (totalnintfixings s)
       (totalnimplintfixings s) (totalncontfixings s) (totalnfixings s)).

(** ** Fixing step of the orchestrator *)

(** [neighborhoodFixVariables].  [SCIP_CALL] returns at once when the
    callback fails.  The final [if] of the source assigns [TRUE] to
    [*success] under a condition that already includes [*success]. *)
Definition neighborhoodFixVariables (scip : SCIP) (neighborhood : NH) (bufs : FIXINGS)
  : SCIP_RETCODE * (SCIP * NH * FIXINGS) :=
  let bufs := mkFIXINGS (varbuf bufs) (valbuf bufs) 0 (success bufs) in
  let bufs := mkFIXINGS (varbuf bufs) (valbuf bufs) (nfixings bufs) false in
  let '(retcode, (scip, data, bufs)) :=
    match varfixings neighborhood with
    | Some callback =>
        callback scip (fixingrate neighborhood) (data_mutation neighborhood) bufs
    | None =>
        (SCIP_OKAY,
         (scip, data_mutation neighborhood,
          mkFIXINGS (varbuf bufs) (valbuf bufs) (nfixings bufs) true))
    end in
  let neighborhood := NH_set_data neighborhood data in
  match retcode with
  | SCIP_ERROR => (SCIP_ERROR, (scip, neighborhood, bufs))
  | SCIP_OKAY =>
      let bufs :=
        if success bufs &&
           Qle_bool (targetfixingrate (fixingrate neighborhood) * inject_Z (SCIPgetNVars scip))%Q
                    (inject_Z (nfixings bufs))
        then mkFIXINGS (varbuf bufs) (valbuf bufs) (nfixings bufs) true
        else bufs in
      (SCIP_OKAY, (scip, neighborhood, bufs))
  end.

(** ** Budget *)

(** [determineLimits]: the limits and [*runagain].  The operands are doubles
    (the integer counters are converted), so every operation is a double
    operation. *)
Definition determineLimits (scip : SCIP) (heur : SCIP_HEUR) (runagain : bool)
  : SOLVELIMITS * bool :=
  let heurdata := SCIPheurGetData heur in
  let timelimit := limits_time scip in
  let timelimit :=
    if negb (SCIPisInfinity scip timelimit) then double_minus timelimit (solvingtime scip)
    else timelimit in
  let memorylimit := limits_memory scip in
  let memorylimit :=
    if negb (SCIPisInfinity scip memorylimit)
    then
      let memorylimit :=
        double_minus memorylimit (double_div (int_to_real (memused scip)) 1048576) in
      double_minus memorylimit (double_div (int_to_real (memexternestim scip)) 1048576)
    else memorylimit in
  let runagain :=
    if Qle_bool timelimit 0%Q
       || Qle_bool memorylimit
            (double_div (double_mult 2 (int_to_real (memexternestim scip))) 1048576)
    then false else runagain in
  let nodelimit :=
    real_to_longint (double_mult (nodesquot heurdata) (int_to_real (nnodes scip))) in
  let nodelimit := nodelimit + nodesoffset heurdata in
  let nodelimit := nodelimit - heur_usednodes heurdata in
  let nodelimit := nodelimit - 100 * SCIPheurGetNCalls heur in
  let runagain := if nodelimit <? minnodes heurdata then false else runagain in
  (mkSOLVELIMITS nodelimit memorylimit timelimit, runagain).

(** ** Configuration of the sub-SCIP *)

Definition INT_MAX : Z := 2147483647.

(** The objective cutoff block of [setupSubScip]: the value handed to
    [SCIPsetObjlimit], or nothing when the outer upper bound is infinite. *)
Definition objectiveCutoff (scip : SCIP) (heurdata : SCIP_HEURDATA) : option Q :=
  if negb (SCIPisInfinity scip (SCIPgetUpperbound scip)) then
    let upperbound := (SCIPgetUpperbound scip - SCIPsumepsilon scip)%Q in
    let cutoff :=
      if negb (SCIPisInfinity scip (-1 * SCIPgetLowerbound scip)%Q)
      then ((1 - minimprove heurdata) * SCIPgetUpperbound scip
            + minimprove heurdata * SCIPgetLowerbound scip)%Q
      else
        if Qle_bool 0%Q (SCIPgetUpperbound scip)
        then ((1 - minimprove heurdata) * SCIPgetUpperbound scip)%Q
        else ((1 + minimprove heurdata) * SCIPgetUpperbound scip)%Q in
    Some (MIN upperbound cutoff)
  else None.

(** [setupSubScip].  The file defines [SCIP_DEBUG], so the verbosity level
    is set twice. *)
Definition setupSubScip (scip : SCIP) (subscip : SUBSCIP) (solvelimits : SOLVELIMITS)
    (heur : SCIP_HEUR) : SUBSCIP :=
  let heurdata := SCIPheurGetData heur in
  let plugins := sub_plugins subscip in
  let subscip := SCIPsetParam subscip "misc/catchctrlc" (ParamBool false) in
  let subscip := SCIPsetParam subscip "display/verblevel" (ParamInt 0) in
  let subscip := SCIPsetParam subscip "display/verblevel" (ParamInt 5) in
  let subscip := SCIPsetParam subscip "timing/statistictiming" (ParamBool false) in
  let subscip := SCIPsetParam subscip "limits/bestsol" (ParamInt (nsolslim heurdata)) in
  let subscip := SCIPapplySetting subscip SubscipsOff in
  let subscip := SCIPapplySetting subscip SeparatingOff in
  let subscip := SCIPapplySetting subscip PresolvingFast in
  let subscip :=
    if findNodesel plugins "estimate"
       && negb (isParamFixed plugins "nodeselection/estimate/stdpriority")
    then SCIPsetParam subscip "nodeselection/estimate/stdpriority" (ParamInt (INT_MAX / 4))
    else subscip in
  let subscip :=
    if findBranchrule plugins "inference"
       && negb (isParamFixed plugins "branching/inference/priority")
    then SCIPsetParam subscip "branching/inference/priority" (ParamInt (INT_MAX / 4))
    else subscip in
  let subscip :=
    if negb (isParamFixed plugins "conflict/enable")
    then SCIPsetParam subscip "conflict/enable" (ParamBool true) else subscip in
  let subscip :=
    if negb (isParamFixed plugins "conflict/maxstoresize")
    then SCIPsetParam subscip "conflict/maxstoresize" (ParamInt 100) else subscip in
  let subscip := SCIPsetParam subscip "lp/checkdualfeas" (ParamBool false) in
  let subscip :=
    if findConshdlr plugins "quadratic"
       && negb (isParamFixed plugins "constraints/quadratic/enfolplimit")
    then SCIPsetParam subscip "constraints/quadratic/enfolplimit" (ParamInt 10)
    else subscip in
  let subscip :=
    match objectiveCutoff scip heurdata with
    | Some cutoff => SCIPsetObjlimit subscip cutoff
    | None => subscip
    end in
  setLimits subscip solvelimits.

(** ** Variable-fixing callbacks *)

(** The assignment of a new variable array to the outer problem. *)
Definition SCIP_set_prob_vars (scip : SCIP) (vars : list SCIP_VAR) : SCIP :=
  mkSCIP vars (prob_nbinvars scip) (prob_nintvars scip)
         (hasCurrentNodeLP scip) (lpsolstat_optimal scip) (lpsolval scip)
         (bestsol scip) (sols scip) (upperbound scip) (lowerbound scip)
         (nbestsolsfound_total scip) (nsolsfound_total scip)
         (num_infinity scip) (num_epsilon scip) (num_sumepsilon scip)
         (limits_time scip) (limits_memory scip) (solvingtime scip)
         (memused scip) (memexternestim scip) (nnodes scip).

(** The fixing [(var, val)] is written at position [*nfixings] of the two
    buffers and [*nfixings] is incremented. *)
Definition appendFixing (bufs : FIXINGS) (var : SCIP_VAR) (val : Q) : FIXINGS :=
  mkFIXINGS (list_set (varbuf bufs) (Z.to_nat (nfixings bufs)) var)
            (list_set (valbuf bufs) (Z.to_nat (nfixings bufs)) val)
            (nfixings bufs + 1) (success bufs).

Definition FIXINGS_set_success (bufs : FIXINGS) (b : bool) : FIXINGS :=
  mkFIXINGS (varbuf bufs) (valbuf bufs) (nfixings bufs) b.

(** The loop of [varFixingsRens] over the binary and integer variables,
    [n] iterations left, at index [i]. *)
Fixpoint rensLoop (scip : SCIP) (vars : list SCIP_VAR) (n : nat) (i : nat) (bufs : FIXINGS)
  : FIXINGS :=
  match n with
  | O => bufs
  | S n' =>
      let var := nth i vars NULLVAR in
      let lpsolval := SCIPgetSolVal scip None var in
      let bufs := if SCIPisIntegral scip lpsolval then appendFixing bufs var lpsolval else bufs in
      rensLoop scip vars n' (S i) bufs
  end.

(** [varFixingsRens]. *)
Definition varFixingsRens : DECL_VARFIXINGS := fun scip _ data bufs =>
  if negb (hasCurrentNodeLP scip) then (SCIP_OKAY, (scip, data, bufs))
  else if negb (lpsolstat_optimal scip) then (SCIP_OKAY, (scip, data, bufs))
  else
    let vars := prob_vars scip in
    let nbinvars := prob_nbinvars scip in
    let nintvars := prob_nintvars scip in
    if nbinvars + nintvars =? 0 then (SCIP_OKAY, (scip, data, bufs))
    else
      let bufs := rensLoop scip vars (Z.to_nat (nbinvars + nintvars)) O bufs in
      (SCIP_OKAY, (scip, data, FIXINGS_set_success bufs true)).

(** The loop of [varFixingsRins]. *)
Fixpoint rinsLoop (scip : SCIP) (incumbent : SCIP_SOL) (vars : list SCIP_VAR)
    (n : nat) (i : nat) (bufs : FIXINGS) : FIXINGS :=
  match n with
  | O => bufs
  | S n' =>
      let var := nth i vars NULLVAR in
      let lpsolval := SCIPgetSolVal scip None var in
      let incumbentsolval := SCIPgetSolVal scip (Some incumbent) var in
      let bufs :=
        if SCIPisEQ scip lpsolval incumbentsolval
        then appendFixing bufs var incumbentsolval else bufs in
      rinsLoop scip incumbent vars n' (S i) bufs
  end.

(** [varFixingsRins]. *)
Definition varFixingsRins : DECL_VARFIXINGS := fun scip _ data bufs =>
  if negb (hasCurrentNodeLP scip) then (SCIP_OKAY, (scip, data, bufs))
  else if negb (lpsolstat_optimal scip) then (SCIP_OKAY, (scip, data, bufs))
  else
    match SCIPgetBestSol scip with
    | None => (SCIP_OKAY, (scip, data, bufs))
    | Some incumbent =>
        if sol_origin_original incumbent then (SCIP_OKAY, (scip, data, bufs))
        else
          let vars := prob_vars scip in
          let nbinvars := prob_nbinvars scip in
          let nintvars := prob_nintvars scip in
          if nbinvars + nintvars =? 0 then (SCIP_OKAY, (scip, data, bufs))
          else
            let bufs :=
              rinsLoop scip incumbent vars (Z.to_nat (nbinvars + nintvars)) O bufs in
            (SCIP_OKAY, (scip, data, FIXINGS_set_success bufs true))
    end.

(** [SCIPswapPointers(&vars[i], &vars[j])]. *)
Definition SCIPswapPointers (vars : list SCIP_VAR) (i j : nat) : list SCIP_VAR :=
  let tmp := nth i vars NULLVAR in
  let vars := list_set vars i (nth j vars NULLVAR) in
  list_set vars j tmp.

(** The loop of [varFixingsMutation], [n] iterations left, at index [i].
    The array [vars] it swaps in is the array that [SCIPgetVarsData]
    returned, that is, the variable array of the outer problem; the
    duplicate [varscpy] is allocated and freed but neither read nor
    written. *)
Fixpoint mutationLoop (scip : SCIP) (incumbentsol : SCIP_SOL) (nbinintvars : Z)
    (n : nat) (i : Z) (rng : RNG) (vars : list SCIP_VAR) (bufs : FIXINGS)
  : RNG * list SCIP_VAR * FIXINGS :=
  match n with
  | O => (rng, vars, bufs)
  | S n' =>
      let '(rand, rng) := SCIPrandomGetInt rng i (nbinintvars - 1) in
      let vars :=
        if rand >? i then SCIPswapPointers vars (Z.to_nat i) (Z.to_nat rand) else vars in
      let var := nth (Z.to_nat i) vars NULLVAR in
      let bufs :=
        mkFIXINGS (list_set (varbuf bufs) (Z.to_nat i) var)
                  (list_set (valbuf bufs) (Z.to_nat i)
                     (SCIPgetSolVal scip (Some incumbentsol) var))
                  (nfixings bufs) (success bufs) in
      mutationLoop scip incumbentsol nbinintvars n' (i + 1) rng vars bufs
  end.

(** [varFixingsMutation].  A neighborhood without mutation data fails the
    assertion at the head of the function, which is a [SCIP_ERROR] here.
    No path assigns [*success]. *)
Definition varFixingsMutation : DECL_VARFIXINGS := fun scip fixingrate data bufs =>
  match data with
  | None => (SCIP_ERROR, (scip, data, bufs))
  | Some mutation =>
      let rng := mutation_rng mutation in
      let vars := prob_vars scip in
      let nvars := SCIPgetNVars scip in
      let nbinvars := prob_nbinvars scip in
      let nintvars := prob_nintvars scip in
      let nbinintvars := nbinvars + nintvars in
      if nbinintvars =? 0 then (SCIP_OKAY, (scip, data, bufs))
      else
        match SCIPgetBestSol scip with
        | None => (SCIP_OKAY, (scip, data, bufs))
        | Some incumbentsol =>
            let targetfixingrate := targetfixingrate fixingrate in
            let ntargetfixings :=
              real_to_longint (targetfixingrate * inject_Z nvars)%Q + 1 in
            if nbinintvars <=? ntargetfixings then (SCIP_OKAY, (scip, data, bufs))
            else
              let '(rng, vars, bufs) :=
                mutationLoop scip incumbentsol nbinintvars
                             (Z.to_nat ntargetfixings) 0 rng vars bufs in
              (SCIP_OKAY,
               (SCIP_set_prob_vars scip vars,
                Some (mkDATA_MUTATION rng),
                mkFIXINGS (varbuf bufs) (valbuf bufs) ntargetfixings (success bufs)))
        end
  end.

(** [lnsIncludeNeighborhood]: the new neighborhood is appended and the
    counter incremented.  The neighborhood and its fixing rate are allocated
    without initialisation; [mem] stands for the memory contents.  The
    function assigns the name and the five callbacks; the fixing rate, the
    statistics, [active] and the private data are what the memory holds. *)
Definition lnsIncludeNeighborhood (heurdata : SCIP_HEURDATA) (mem : NH) (nm : string)
    (varfixings : option DECL_VARFIXINGS)
    (changesubscip setupsubscip nhinit nhexit : bool) : SCIP_HEURDATA :=
  let neighborhood :=
    mkNH nm (fixingrate mem) (stats mem) varfixings changesubscip setupsubscip nhinit nhexit
         (active mem) (data_mutation mem) in
  mkSCIP_HEURDATA
    (list_set (neighborhoods heurdata) (Z.to_nat (nneighborhoods heurdata)) neighborhood)
    (epsgreedynh heurdata) (exp3 heurdata) (nodesoffset heurdata) (maxnodes heurdata)
    (minnodes heurdata) (heur_usednodes heurdata) (nodesquot heurdata)
    (minimprove heurdata) (lplimfac heurdata) (nneighborhoods heurdata + 1)
    (nsolslim heurdata).

(** [includeNeighborhoods]: RENS, RINS and mutation, in this order;
    [memrens], [memrins] and [memmuta] are the contents of the memory that the
    three neighborhoods are allocated in. *)
Definition includeNeighborhoods (heurdata : SCIP_HEURDATA)
    (memrens memrins memmuta : NH) : SCIP_HEURDATA :=
  let heurdata :=
    mkSCIP_HEURDATA
      (neighborhoods heurdata)
      (epsgreedynh heurdata) (exp3 heurdata) (nodesoffset heurdata) (maxnodes heurdata)
      (minnodes heurdata) (heur_usednodes heurdata) (nodesquot heurdata)
      (minimprove heurdata) (lplimfac heurdata) 0 (nsolslim heurdata) in
  let heurdata :=
    lnsIncludeNeighborhood heurdata memrens "rens" (Some varFixingsRens)
                           true false false false in
  let heurdata :=
    lnsIncludeNeighborhood heurdata memrins "rins" (Some varFixingsRins)
                           false false false false in
  lnsIncludeNeighborhood heurdata memmuta "muta" (Some varFixingsMutation)
                         false false true true.

(** ** Solution harvesting *)

(** [SCIPcreateSol] followed by [SCIPsetSolVals(scip, newsol, nvars, vars,
    vals)]: a solution of the transformed problem with [vals[k]] at
    [vars[k]] and zero elsewhere. *)
Definition SCIPsetSolVals (vars : list SCIP_VAR) (vals : list Q) : SCIP_SOL :=
  mkSCIP_SOL false
    (fun var =>
       match find (fun p => Nat.eqb (fst p) var) (combine vars vals) with
       | Some p => snd p
       | None => 0%Q
       end).

(** [transferSolution]: the outer instance after the candidate built from
    the sub-SCIP's best solution was submitted.  The flag written by
    [SCIPtrySolFree] is a local of the function and is dropped. *)
Definition transferSolution (sourcescip : SCIP) (subsolvals : list Q) : SCIP :=
  let vars := prob_vars sourcescip in
  let nvars := List.length vars in
  let newsol := SCIPsetSolVals vars (firstn nvars subsolvals) in
  let '(sourcescip, success) := SCIPtrySolFree sourcescip newsol in
  sourcescip.

(** [eventExecLns]: the outer instance after the event, and whether the
    handler asked the sub-SCIP to stop ([SCIPinterruptSolve]). *)
Definition eventExecLns (sourcescip : SCIP) (event : SCIP_EVENT) (eventdata : SCIP_EVENTDATA)
  : SCIP * bool :=
  match event with
  | SCIP_EVENTTYPE_BESTSOLFOUND subsolvals => (transferSolution sourcescip subsolvals, false)
  | SCIP_EVENTTYPE_LPSOLVED nlps =>
      if Qlt_bool (ev_lplimfac eventdata * inject_Z (ev_nodelimit eventdata))%Q (inject_Z nlps)
      then (sourcescip, true)
      else (sourcescip, false)
  | SCIP_EVENTTYPE_OTHER => (sourcescip, false)
  end.

(** The run of the sub-SCIP seen from the outer instance: the handler is
    executed on every event of the run, in order. *)
Fixpoint handleEvents (sourcescip : SCIP) (events : list SCIP_EVENT)
    (eventdata : SCIP_EVENTDATA) (interrupted : bool) : SCIP * bool :=
  match events with
  | [] => (sourcescip, interrupted)
  | event :: rest =>
      let '(sourcescip, interrupt) := eventExecLns sourcescip event eventdata in
      handleEvents sourcescip rest eventdata (interrupted || interrupt)
  end.

(** ** Execution callback *)

Definition HEURDATA_set_neighborhood (heurdata : SCIP_HEURDATA) (idx : Z) (neighborhood : NH)
  : SCIP_HEURDATA :=
  mkSCIP_HEURDATA
    (list_set (neighborhoods heurdata) (Z.to_nat idx) neighborhood)
    (epsgreedynh heurdata) (exp3 heurdata) (nodesoffset heurdata) (maxnodes heurdata)
    (minnodes heurdata) (heur_usednodes heurdata) (nodesquot heurdata)
    (minimprove heurdata) (lplimfac heurdata) (nneighborhoods heurdata)
    (nsolslim heurdata).

Definition HEURDATA_set_epsgreedynh (heurdata : SCIP_HEURDATA) (epsgreedy : EPSGREEDY)
  : SCIP_HEURDATA :=
  mkSCIP_HEURDATA
    (neighborhoods heurdata)
    epsgreedy (exp3 heurdata) (nodesoffset heurdata) (maxnodes heurdata)
    (minnodes heurdata) (heur_usednodes heurdata) (nodesquot heurdata)
    (minimprove heurdata) (lplimfac heurdata) (nneighborhoods heurdata)
    (nsolslim heurdata).

Definition HEURDATA_add_usednodes (heurdata : SCIP_HEURDATA) (n : Z) : SCIP_HEURDATA :=
  mkSCIP_HEURDATA
    (neighborhoods heurdata)
    (epsgreedynh heurdata) (exp3 heurdata) (nodesoffset heurdata) (maxnodes heurdata)
    (minnodes heurdata) (heur_usednodes heurdata + n) (nodesquot heurdata)
    (minimprove heurdata) (lplimfac heurdata) (nneighborhoods heurdata)
    (nsolslim heurdata).

(** [neighborhood->stats.totalnfixings += nfixings]. *)
Definition NH_add_totalnfixings (neighborhood : NH) (n : Z) : NH :=
  let s := stats neighborhood in
  NH_set_stats neighborhood
    (mkNH_STATS (usednodes s) (lpiterations s) (totalgapclosed s) (nruns s) (nrunsbestsol s)
       (nsolsfound s) (nbestsolsfound s) (presolrounds s) (totalnbinfixings s)
       (totalnintfixings s) (totalnimplintfixings s) (totalncontfixings s)
       (totalnfixings s + n)).

(** The framework calls of [heurExecLns] between the assignment
    [*result = SCIP_DIDNOTFIND] and [SCIPsolve], in the order of the
    source. *)
Definition launchCalls : list FRAMEWORK_CALL :=
  [CALL_SCIPcreate; CALL_SCIPhashmapCreate; CALL_SCIPcopyLargeNeighborhoodSearch;
   CALL_setupSubScip; CALL_SCIPincludeEventhdlrBasic; CALL_SCIPtransformProb;
   CALL_SCIPcatchEvent].

(** The three buffer allocations of [heurExecLns]. *)
Definition bufferCalls : list FRAMEWORK_CALL :=
  [CALL_SCIPallocBufferArray; CALL_SCIPallocBufferArray; CALL_SCIPallocBufferArray].

(** [heurExecLns]: the return code, the outer instance and the heuristic
    after the call, and [*result].  A [SCIP_CALL] that fails returns its
    code at once, with [*result] and the state as they are at that moment.
    The two assertions on the selected index are a [SCIP_ERROR] when they
    fail.  The three buffers are allocated with [nvars] entries. *)
Definition heurExecLns (scip : SCIP) (heur : SCIP_HEUR)
  : SCIP_RETCODE * (SCIP * SCIP_HEUR * SCIP_RESULT) :=
  let heurdata := SCIPheurGetData heur in
  let result := SCIP_DELAYED in
  let run := true in
  let '(solvelimits, run) := determineLimits scip heur run in
  if negb run then (SCIP_OKAY, (scip, heur, result))
  else
    let result := SCIP_DIDNOTRUN in
    match SCIP_CALLs [CALL_SCIPgetVarsData] scip with
    | SCIP_ERROR => (SCIP_ERROR, (scip, heur, result))
    | SCIP_OKAY =>
    let nvars := List.length (prob_vars scip) in
    let '(neighborhoodidx, epsgreedy) :=
      epsGreedySelect epsNChoicesLns epsRewardLns heurdata (epsgreedynh heurdata) in
    let heurdata := HEURDATA_set_epsgreedynh heurdata epsgreedy in
    if (neighborhoodidx <? 0) || (nneighborhoods heurdata <=? neighborhoodidx)
    then (SCIP_ERROR, (scip, mkSCIP_HEUR heurdata (SCIPheurGetNCalls heur), result))
    else
      let neighborhood := nth (Z.to_nat neighborhoodidx) (neighborhoods heurdata) NH_null in
      match SCIP_CALLs bufferCalls scip with
      | SCIP_ERROR => (SCIP_ERROR, (scip, mkSCIP_HEUR heurdata (SCIPheurGetNCalls heur), result))
      | SCIP_OKAY =>
      let bufs := mkFIXINGS (repeat NULLVAR nvars) (repeat 0%Q nvars) 0 false in
      let '(retcode, (scip, neighborhood, bufs)) :=
        neighborhoodFixVariables scip neighborhood bufs in
      match retcode with
      | SCIP_ERROR =>
          let heurdata := HEURDATA_set_neighborhood heurdata neighborhoodidx neighborhood in
          (SCIP_ERROR, (scip, mkSCIP_HEUR heurdata (SCIPheurGetNCalls heur), result))
      | SCIP_OKAY =>
          if negb (success bufs)
          then
            let heurdata := HEURDATA_set_neighborhood heurdata neighborhoodidx neighborhood in
            (SCIP_OKAY, (scip, mkSCIP_HEUR heurdata (SCIPheurGetNCalls heur), result))
          else
            let result := SCIP_DIDNOTFIND in
            let neighborhood := NH_add_totalnfixings neighborhood (nfixings bufs) in
            let neighborhood := initNeighborhoodStatsRun scip neighborhood in
            match SCIP_CALLs launchCalls scip with
            | SCIP_ERROR =>
                let heurdata :=
                  HEURDATA_set_neighborhood heurdata neighborhoodidx neighborhood in
                (SCIP_ERROR, (scip, mkSCIP_HEUR heurdata (SCIPheurGetNCalls heur), result))
            | SCIP_OKAY =>
            let subscip :=
              SCIPcopyLargeNeighborhoodSearch scip (name neighborhood)
                (varbuf bufs) (valbuf bufs) (nfixings bufs) in
            let subscip := setupSubScip scip subscip solvelimits heur in
            let eventdata := mkSCIP_EVENTDATA (nodelimit solvelimits) (lplimfac heurdata) in
            let '(events, subscip) := SCIPsolve subscip in
            let '(scip, _) := handleEvents scip events eventdata false in
            let neighborhood := updateNeighborhoodStats scip neighborhood subscip in
            let heurdata := HEURDATA_set_neighborhood heurdata neighborhoodidx neighborhood in
            let heurdata := HEURDATA_add_usednodes heurdata (SCIPgetNNodes subscip) in
            (SCIP_CALLs [CALL_SCIPfree] scip,
             (scip, mkSCIP_HEUR heurdata (SCIPheurGetNCalls heur), result))
            end
      end
      end
    end.

(** Whether the outer solution store accepted a candidate while the handler
    ran over [events]: the flag of [SCIPtrySolFree], which [transferSolution]
    discards, collected over the run. *)
Fixpoint solutionAccepted (sourcescip : SCIP) (events : list SCIP_EVENT)
    (eventdata : SCIP_EVENTDATA) : bool :=
  match events with
  | [] => false
  | event :: rest =>
      let accepted :=
        match event with
        | SCIP_EVENTTYPE_BESTSOLFOUND subsolvals =>
            snd (SCIPtrySolFree sourcescip
                   (SCIPsetSolVals (prob_vars sourcescip)
                      (firstn (List.length (prob_vars sourcescip)) subsolvals)))
        | _ => false
        end in
      accepted || solutionAccepted (fst (eventExecLns sourcescip event eventdata)) rest eventdata
  end.

End Lns.

Arguments DATA_MUTATION RNG : clear implicits.
Arguments DECL_VARFIXINGS RNG : clear implicits.
Arguments NH RNG : clear implicits.
Arguments EPSGREEDY RNG : clear implicits.
Arguments EXPTHREE RNG : clear implicits.
Arguments SCIP_HEURDATA RNG : clear implicits.
Arguments SCIP_HEUR RNG : clear implicits.

(** ** Creation and initialisation

    [SCIPrandomCreate(&rng, blkmem, seed)] and
    [SCIPinitializeRandomSeed(scip, seed)] belong to the outer framework;
    they are an interface like the generator itself. *)
Class RandNumSeed (RNG : Type) : Type := {
  SCIPrandomCreate : Z -> RNG;
  SCIPinitializeRandomSeed : SCIP -> Z -> Z
}.

Section LnsInit.

Context {RNG : Type} {rngops : RandNumGen RNG} {seedops : RandNumSeed RNG}.

(** The loop of [expThreeReset] over the actions, [n] iterations left, at
    index [i]: the two arrays after the loop. *)
Fixpoint expThreeResetLoop (n : nat) (i : nat) (uniform : Q) (probs gains : list Q)
  : list Q * list Q :=
  match n with
  | O => (probs, gains)
  | S n' =>
      expThreeResetLoop n' (S i) uniform (list_set probs i uniform) (list_set gains i 0%Q)
  end.

(** [expThreeReset].  A generator that is present is freed and a new one is
    created from the stored seed. *)
Definition expThreeReset (exp3 : EXPTHREE RNG) : EXPTHREE RNG :=
  let uniform := (1 / inject_Z (nactions exp3))%Q in
  let '(probs, gains) :=
    expThreeResetLoop (Z.to_nat (nactions exp3)) O uniform
                      (probabilities exp3) (cumulativegain exp3) in
  mkEXPTHREE (nactions exp3) 0 probs gains
             (Some (SCIPrandomCreate (initseed exp3))) (initseed exp3).

(** [epsGreedyCreate].  The two callbacks and the user pointer are arguments
    of [epsGreedySelect].  Nothing assigns [eps]: it is what the allocated
    memory holds, [epsmem]. *)
Definition epsGreedyCreate (initseed : Z) (epsmem : Q) : EPSGREEDY RNG :=
  mkEPSGREEDY epsmem (SCIPrandomCreate initseed).

(** [nhInitMutation]. *)
Definition nhInitMutation (neighborhood : NH RNG) : NH RNG :=
  NH_set_data neighborhood (Some (mkDATA_MUTATION (SCIPrandomCreate MUTATIONSEED))).

(** [neighborhoodInit].  The neighborhood record keeps the presence of the
    initialisation callback; the one such callback that the file registers
    is [nhInitMutation]. *)
Definition neighborhoodInit (neighborhood : NH RNG) : NH RNG :=
  if has_nhinit neighborhood then nhInitMutation neighborhood else neighborhood.

Definition NH_set_fixingrate (neighborhood : NH RNG) (fr : NH_FIXINGRATE) : NH RNG :=
  mkNH (name neighborhood) fr (stats neighborhood) (varfixings neighborhood)
       (has_changesubscip neighborhood) (has_setupsubscip neighborhood)
       (has_nhinit neighborhood) (has_nhexit neighborhood) (active neighborhood)
       (data_mutation neighborhood).

(** The loop of [heurInitLns] over the neighborhoods, [n] iterations left,
    at index [i]. *)
Fixpoint heurInitLoop (n : nat) (i : nat) (nhs : list (NH RNG)) : list (NH RNG) :=
  match n with
  | O => nhs
  | S n' =>
      let neighborhood := nth i nhs NH_null in
      let neighborhood := neighborhoodInit neighborhood in
      let neighborhood :=
        NH_set_fixingrate neighborhood (fixingRateReset (fixingrate neighborhood)) in
      let neighborhood :=
        NH_set_stats neighborhood (neighborhoodStatsReset (stats neighborhood)) in
      heurInitLoop n' (S i) (list_set nhs i neighborhood)
  end.

(** [heurInitLns]: the heuristic data after the initialisation; [epsmem] is
    the content of the memory that the epsilon-greedy selector is allocated
    in.

    When [heurdata->exp3] is [NULL] the source calls [expThreeCreate].  That
    function hands the array pointers [probabilities] and [cumulativegain]
    of the new struct themselves to [SCIPallocBlockMemoryArray],
    which expects the address of the pointer it is to set, as every other
    allocation of the file passes it.  The two array pointers of the struct
    are therefore never set, and [expThreeReset] then writes through them.
    The call has no defined result, and neither has [heurInitLns] on this
    path: it has no value here. *)
Definition heurInitLns (scip : SCIP) (heurdata : SCIP_HEURDATA RNG) (epsmem : Q)
  : option (SCIP_HEURDATA RNG) :=
  let nhs :=
    heurInitLoop (Z.to_nat (nneighborhoods heurdata)) O (neighborhoods heurdata) in
  let epsgreedy := epsGreedyCreate DEFAULT_INITSEED epsmem in
  match exp3 heurdata with
  | None => None
  | Some e =>
      let exp3 := expThreeReset e in
      Some (mkSCIP_HEURDATA nhs epsgreedy (Some exp3) (nodesoffset heurdata)
              (maxnodes heurdata) (minnodes heurdata) 0 (nodesquot heurdata)
              (minimprove heurdata) (lplimfac heurdata) (nneighborhoods heurdata)
              (nsolslim heurdata))
  end.

End LnsInit.

(** ** Vocabulary of the properties *)

(** [i] is the first arm of greatest reward among the arms [0 .. n-1]:
    no arm has a greater reward and every arm before [i] has a smaller one. *)
Definition firstMaxArm (reward : Z -> Q) (n : Z) (i : Z) : Prop :=
  0 <= i < n /\
  (forall j, 0 <= j < n -> (reward j <= reward i)%Q) /\
  (forall j, 0 <= j < i -> (reward j < reward i)%Q).

(** The neighborhood that [heurExecLns] selects, and what its fixing step
    returns, in the state in which [heurExecLns] calls it. *)
Definition selectedIndex {RNG : Type} {rngops : RandNumGen RNG} (heur : SCIP_HEUR RNG) : Z :=
  fst (epsGreedySelect epsNChoicesLns epsRewardLns (SCIPheurGetData heur)
         (epsgreedynh (SCIPheurGetData heur))).

Definition selectedFixings {RNG : Type} {rngops : RandNumGen RNG}
    (scip : SCIP) (heur : SCIP_HEUR RNG) : SCIP_RETCODE * (SCIP * NH RNG * FIXINGS) :=
  neighborhoodFixVariables scip
    (nth (Z.to_nat (selectedIndex heur)) (neighborhoods (SCIPheurGetData heur)) NH_null)
    (mkFIXINGS (repeat NULLVAR (List.length (prob_vars scip)))
               (repeat 0%Q (List.length (prob_vars scip))) 0 false).

(** Whether [heurExecLns] gets as far as the fixing step: [SCIPgetVarsData]
    succeeds, the selected index is that of a registered neighborhood, and
    the three buffers are allocated. *)
Definition fixingStepReached {RNG : Type} {rngops : RandNumGen RNG} {solver : SubSolver}
    (scip : SCIP) (heur : SCIP_HEUR RNG) : bool :=
  match SCIP_CALLs [CALL_SCIPgetVarsData] scip with
  | SCIP_ERROR => false
  | SCIP_OKAY =>
      negb ((selectedIndex heur <? 0)
            || (nneighborhoods (SCIPheurGetData heur) <=? selectedIndex heur))
      && match SCIP_CALLs bufferCalls scip with
         | SCIP_OKAY => true
         | SCIP_ERROR => false
         end
  end.

(** The fixing step was reached and declined: it returned [SCIP_OKAY] with
    [*success == FALSE]. *)
Definition fixingDeclined {RNG : Type} {rngops : RandNumGen RNG} {solver : SubSolver}
    (scip : SCIP) (heur : SCIP_HEUR RNG) : bool :=
  fixingStepReached scip heur
  && match selectedFixings scip heur with
     | (SCIP_OKAY, (_, _, bufs)) => negb (success bufs)
     | (SCIP_ERROR, _) => false
     end.

(** The fixing step was reached and succeeded: it returned [SCIP_OKAY] with
    [*success == TRUE], and [heurExecLns] goes on to launch the sub-solve. *)
Definition fixingSucceeded {RNG : Type} {rngops : RandNumGen RNG} {solver : SubSolver}
    (scip : SCIP) (heur : SCIP_HEUR RNG) : bool :=
  fixingStepReached scip heur
  && match selectedFixings scip heur with
     | (SCIP_OKAY, (_, _, bufs)) => success bufs
     | (SCIP_ERROR, _) => false
     end.

(** Whether the outer store accepted a candidate during the sub-solve that
    [heurExecLns] launches: the events are those of the sub-SCIP that
    [heurExecLns] builds, configures and solves, and the outer instance is
    the one the fixing step returned. *)
Definition acceptedDuringRun {RNG : Type} {rngops : RandNumGen RNG} {solver : SubSolver}
    (scip : SCIP) (heur : SCIP_HEUR RNG) : bool :=
  let solvelimits := fst (determineLimits scip heur true) in
  let '(_, (scip1, neighborhood, bufs)) := selectedFixings scip heur in
  let subscip :=
    SCIPcopyLargeNeighborhoodSearch scip1 (name neighborhood)
      (varbuf bufs) (valbuf bufs) (nfixings bufs) in
  let subscip := setupSubScip scip1 subscip solvelimits heur in
  solutionAccepted scip1 (fst (SCIPsolve subscip))
    (mkSCIP_EVENTDATA (nodelimit solvelimits) (lplimfac (SCIPheurGetData heur))).

(** ** A replaying generator and a scripted nested solver

    Concrete collaborators on which the functions can be run. *)

(** The generator replays a list of numbers of [[0, 1]]. *)
Definition ReplayRng : Type := list Q.

Definition replayGetReal (rng : ReplayRng) (lo hi : Q) : Q * ReplayRng :=
  ((lo + (hi - lo) * hd 0 rng)%Q, tl rng).

Definition replayGetInt (rng : ReplayRng) (lo hi : Z) : Z * ReplayRng :=
  (lo + Qfloor (hd 0%Q rng * inject_Z (hi - lo + 1))%Q mod (hi - lo + 1), tl rng).

Definition replayRandNumGen : RandNumGen ReplayRng :=
  Build_RandNumGen ReplayRng replayGetReal replayGetInt.

Definition scriptedPlugins : SUBSCIP_PLUGINS :=
  mkSUBSCIP_PLUGINS (fun _ => true) (fun _ => true) (fun _ => false) (fun _ => false).

(** The outer store accepts every candidate as its new incumbent. *)
Definition acceptSol (scip : SCIP) (sol : SCIP_SOL) : SCIP * bool :=
  (mkSCIP (prob_vars scip) (prob_nbinvars scip) (prob_nintvars scip)
          (hasCurrentNodeLP scip) (lpsolstat_optimal scip) (lpsolval scip)
          (Some sol) (sol :: sols scip) (upperbound scip) (lowerbound scip)
          (nbestsolsfound_total scip + 1) (nsolsfound_total scip + 1)
          (num_infinity scip) (num_epsilon scip) (num_sumepsilon scip)
          (limits_time scip) (limits_memory scip) (solvingtime scip)
          (memused scip) (memexternestim scip) (nnodes scip),
   true).

(** The nested solve solves one LP, finds one solution and stops after one
    node and twelve LP iterations.  No framework call fails. *)
Definition scriptedSolver : SubSolver :=
  Build_SubSolver
    (fun _ _ _ _ _ => mkSUBSCIP scriptedPlugins [] [] None (mkSUBSCIP_STATS 0 0 0 0))
    (fun subscip =>
       ([SCIP_EVENTTYPE_LPSOLVED 1; SCIP_EVENTTYPE_BESTSOLFOUND [1; 0; 1; 0]%Q],
        mkSUBSCIP (sub_plugins subscip) (sub_params subscip) (sub_settings subscip)
                  (sub_objlimit subscip) (mkSUBSCIP_STATS 12 1 1 1)))
    acceptSol
    (fun _ _ => SCIP_OKAY).

(** The same nested solve in front of an outer store that rejects every
    candidate. *)
Definition rejectingSolver : SubSolver :=
  Build_SubSolver
    (SCIPcopyLargeNeighborhoodSearch (SubSolver := scriptedSolver))
    (SCIPsolve (SubSolver := scriptedSolver))
    (fun scip _ => (scip, false))
    (SCIPcallRetcode (SubSolver := scriptedSolver)).

(** The same nested solver in a framework whose [SCIPcreate] fails. *)
Definition failingCreateSolver : SubSolver :=
  Build_SubSolver
    (SCIPcopyLargeNeighborhoodSearch (SubSolver := scriptedSolver))
    (SCIPsolve (SubSolver := scriptedSolver))
    acceptSol
    (fun call _ =>
       match call with
       | CALL_SCIPcreate => SCIP_ERROR
       | _ => SCIP_OKAY
       end).

(** An outer problem with four binary variables, an optimal LP whose values
    are all one half, an incumbent of value 10 and a dual bound of 2. *)
Definition incumbent_ex : SCIP_SOL := mkSCIP_SOL false (fun _ => 1%Q).

Definition scip_ex : SCIP :=
  mkSCIP [1; 2; 3; 4]%nat 4 0 true true (fun _ => (1 # 2)%Q)
         (Some incumbent_ex) [incumbent_ex] 10%Q 2%Q 1 1
         (100000000000000000000 # 1)%Q (1 # 1000000000)%Q (1 # 1000000)%Q
         (100000000000000000000 # 1)%Q (100000000000000000000 # 1)%Q 5%Q
         1048576 1048576 1000.

Definition fixingrate_ex : NH_FIXINGRATE := fixingRateReset (mkNH_FIXINGRATE 0%Q 0%Q 0%Q).

(** Statistics as they are after twelve runs, with a non-zero count of
    integer fixings. *)
Definition stats_ex : NH_STATS := mkNH_STATS 40 300 0%Q 12 5 4 1 0 9 7 0 0 16.

Definition rens_ex : NH ReplayRng :=
  mkNH "rens" fixingrate_ex (neighborhoodStatsReset stats_ex)
       (Some (varFixingsRens (RNG := ReplayRng))) true false false false false None.

Definition mutation_ex : NH ReplayRng :=
  mkNH "muta" fixingrate_ex (neighborhoodStatsReset stats_ex)
       (Some (varFixingsMutation (rngops := replayRandNumGen))) false false true true false
       (Some (mkDATA_MUTATION [(1 # 2)%Q; 0%Q])).

Definition nocallback_ex : NH ReplayRng :=
  mkNH "none" fixingrate_ex (neighborhoodStatsReset stats_ex)
       None false false false false false None.

Definition bufs_ex : FIXINGS := mkFIXINGS (repeat NULLVAR 4) (repeat 0%Q 4) 0 false.

Definition heurdata_ex : SCIP_HEURDATA ReplayRng :=
  mkSCIP_HEURDATA [nocallback_ex] (mkEPSGREEDY 1%Q [(1 # 2)%Q]) None
    DEFAULT_NODESOFFSET DEFAULT_MAXNODES DEFAULT_MINNODES 0 DEFAULT_NODESQUOT
    DEFAULT_MINIMPROVE LPLIMFAC 1 DEFAULT_NSOLSLIM.

Definition heur_ex : SCIP_HEUR ReplayRng := mkSCIP_HEUR heurdata_ex 1.

Definition exp3_ex : EXPTHREE ReplayRng :=
  mkEXPTHREE 3 1 [(1 # 3)%Q; (1 # 3)%Q; (1 # 3)%Q] [0%Q; 0%Q; 0%Q] (Some []) DEFAULT_INITSEED.



(** Three arms with the rewards 1/3, 2/3 and 2/3. *)
Definition rewards_ex (_ : unit) (i : Z) : Q :=
  if i =? 0 then (1 # 3)%Q else (2 # 3)%Q.

(** ** Further vocabulary and inputs *)

(** The relation between the two run counters that keeps a reward inside
    [[0, 1]]. *)
Definition statsRewardInv (s : NH_STATS) : Prop :=
  0 <= nruns s /\ 0 <= nrunsbestsol s <= DEFAULT_BESTSOLWEIGHT * nruns s.

(** The sum of the first [k] probabilities, added from the left as the
    selection loop adds them: every partial sum is a double. *)
Definition prefixSum (probs : list Q) (k : nat) : Q :=
  fold_left double_plus (firstn k probs) 0%Q.

(** The value of a parameter of a sub-SCIP: its latest setting. *)
Definition SCIPgetParam (subscip : SUBSCIP) (nm : string) : option SCIP_PARAMVAL :=
  option_map snd (find (fun p => String.eqb (fst p) nm) (sub_params subscip)).

(** An LP event whose counter is above [lplimfac * nodelimit]. *)
Definition lpLimitExceeded (eventdata : SCIP_EVENTDATA) (event : SCIP_EVENT) : bool :=
  match event with
  | SCIP_EVENTTYPE_LPSOLVED nlps =>
      Qlt_bool (ev_lplimfac eventdata * inject_Z (ev_nodelimit eventdata))%Q (inject_Z nlps)
  | _ => false
  end.

Definition isBestSolEvent (event : SCIP_EVENT) : bool :=
  match event with
  | SCIP_EVENTTYPE_BESTSOLFOUND _ => true
  | _ => false
  end.

(** Creation of a replaying generator: the seed selects nothing, every new
    generator replays one half and then zeros. *)
Definition replayRandNumSeed : RandNumSeed ReplayRng :=
  Build_RandNumSeed ReplayRng (fun _ => [(1 # 2)%Q]) (fun _ seed => seed).

(** Heuristic data with room for [NNEIGHBORHOODS] neighborhoods, as
    [SCIPincludeHeurLns] allocates it. *)
Definition heurdata_alloc_ex : SCIP_HEURDATA ReplayRng :=
  mkSCIP_HEURDATA (repeat NH_null 3) (mkEPSGREEDY 1%Q []) None
    DEFAULT_NODESOFFSET DEFAULT_MAXNODES DEFAULT_MINNODES 0 DEFAULT_NODESQUOT
    DEFAULT_MINIMPROVE LPLIMFAC 0 DEFAULT_NSOLSLIM.

(** An LP with integral values at the variables 1 and 3. *)
Definition scip_int_ex : SCIP :=
  mkSCIP [1; 2; 3; 4]%nat 4 0 true true
         (fun v => if Nat.odd v then 1%Q else (1 # 2)%Q)
         (Some incumbent_ex) [incumbent_ex] 10%Q 2%Q 1 1
         (100000000000000000000 # 1)%Q (1 # 1000000000)%Q (1 # 1000000)%Q
         (100000000000000000000 # 1)%Q (100000000000000000000 # 1)%Q 5%Q
         1048576 1048576 1000.

(** A neighborhood after twelve runs, five of them rewarded, and a heuristic
    that has it registered. *)
Definition heurdata_runs_ex : SCIP_HEURDATA ReplayRng :=
  mkSCIP_HEURDATA
    [mkNH "rens" fixingrate_ex stats_ex (Some (varFixingsRens (RNG := ReplayRng)))
          true false false false false None]
    (mkEPSGREEDY 1%Q [(1 # 2)%Q]) None
    DEFAULT_NODESOFFSET DEFAULT_MAXNODES DEFAULT_MINNODES 0 DEFAULT_NODESQUOT
    DEFAULT_MINIMPROVE LPLIMFAC 1 DEFAULT_NSOLSLIM.

(** One registered mutation neighborhood. *)
Definition heur_mutation_ex : SCIP_HEUR ReplayRng :=
  mkSCIP_HEUR
    (mkSCIP_HEURDATA [mutation_ex] (mkEPSGREEDY 1%Q [(1 # 2)%Q]) None
       DEFAULT_NODESOFFSET DEFAULT_MAXNODES DEFAULT_MINNODES 0 DEFAULT_NODESQUOT
       DEFAULT_MINIMPROVE LPLIMFAC 1 DEFAULT_NSOLSLIM) 1.



(** Heuristic data whose EXP3 selector exists already, as at the
    initialisation for a second problem. *)
Definition heurdata_reinit_ex : SCIP_HEURDATA ReplayRng :=
  mkSCIP_HEURDATA
    [mkNH "rens" fixingrate_ex stats_ex (Some (varFixingsRens (RNG := ReplayRng)))
          true false false false false None]
    (mkEPSGREEDY 1%Q [(1 # 2)%Q]) (Some exp3_ex)
    DEFAULT_NODESOFFSET DEFAULT_MAXNODES DEFAULT_MINNODES 40 DEFAULT_NODESQUOT
    DEFAULT_MINIMPROVE LPLIMFAC 1 DEFAULT_NSOLSLIM.

(** A neighborhood after a thousand million runs, five of them rewarded:
    three times its number of runs does not fit into an [int]. *)
Definition heurdata_manyruns_ex : SCIP_HEURDATA ReplayRng :=
  mkSCIP_HEURDATA
    [mkNH "rens" fixingrate_ex (mkNH_STATS 0 0 0%Q 1000000000 5 0 0 0 0 0 0 0 0)
          (Some (varFixingsRens (RNG := ReplayRng))) true false false false false None]
    (mkEPSGREEDY 1%Q [(1 # 2)%Q]) None
    DEFAULT_NODESOFFSET DEFAULT_MAXNODES DEFAULT_MINNODES 0 DEFAULT_NODESQUOT
    DEFAULT_MINIMPROVE LPLIMFAC 1 DEFAULT_NSOLSLIM.

(** Memory contents of a neighborhood before its registration. *)
Definition nh_mem_ex : NH ReplayRng :=
  mkNH EmptyString (mkNH_FIXINGRATE 7%Q 7%Q 7%Q) stats_ex None true true true true true
       (Some (mkDATA_MUTATION [])).

(** * Properties *)

(** ** Arithmetic of the embedding *)

Lemma Qlt_bool_iff (a b : Q) : Qlt_bool a b = true <-> (a < b)%Q.
Proof.
  unfold Qlt_bool. rewrite negb_true_iff. split; intro H.
  - apply Qnot_le_lt. intro Hle. apply Qle_bool_iff in Hle. congruence.
  - destruct (Qle_bool b a) eqn:E; [|reflexivity].
    apply Qle_bool_iff in E. exfalso. exact (Qlt_not_le _ _ H E).
Qed.

Lemma Qlt_bool_false_iff (a b : Q) : Qlt_bool a b = false <-> (b <= a)%Q.
Proof.
  unfold Qlt_bool. rewrite negb_false_iff. apply Qle_bool_iff.
Qed.

Lemma Qle_bool_false_iff (a b : Q) : Qle_bool a b = false <-> (b < a)%Q.
Proof.
  split; intro H.
  - apply Qnot_le_lt. intro Hle. apply Qle_bool_iff in Hle. congruence.
  - destruct (Qle_bool a b) eqn:E; [|reflexivity].
    apply Qle_bool_iff in E. exfalso. exact (Qlt_not_le _ _ H E).
Qed.

(** On a non-negative number the C conversion to an integer is the floor. *)
Lemma real_to_longint_floor (x : Q) : (0 <= x)%Q -> real_to_longint x = Qfloor x.
Proof.
  destruct x as [n d]. unfold Qle, real_to_longint, Qfloor. simpl. intro H.
  apply Z.quot_div_nonneg; lia.
Qed.

(** ** Rounding of doubles *)

Ltac Qcompare_to_order :=
  repeat match goal with
  | H : (_ ?= _)%Q = Eq |- _ => apply Qeq_alt in H
  | H : (_ ?= _)%Q = Lt |- _ => apply Qlt_alt in H
  | H : (_ ?= _)%Q = Gt |- _ => apply Qgt_alt in H
  end.

(** The rounding to the nearest integer lies between the floor and the
    floor plus one, keeps integers, and is monotone. *)
Lemma round_half_even_bounds (q : Q) :
  Qfloor q <= round_half_even q <= Qfloor q + 1.
Proof.
  unfold round_half_even.
  destruct (Qcompare _ _); [destruct (Z.even _)| |]; lia.
Qed.

Lemma round_half_even_ge (q : Q) (z : Z) :
  (inject_Z z <= q)%Q -> z <= round_half_even q.
Proof.
  intros H. apply Qfloor_resp_le in H. rewrite Qfloor_Z in H.
  pose proof (round_half_even_bounds q). lia.
Qed.

Lemma round_half_even_le (q : Q) (z : Z) :
  (q <= inject_Z z)%Q -> round_half_even q <= z.
Proof.
  intros H. pose proof (Qfloor_resp_le _ _ H) as Hf. rewrite Qfloor_Z in Hf.
  pose proof (round_half_even_bounds q) as Hb.
  destruct (Z.eq_dec (Qfloor q) z) as [Heq|]; [|lia].
  unfold round_half_even.
  assert (Hq : (q - inject_Z (Qfloor q) <= 0)%Q) by (rewrite Heq; lra).
  destruct (Qcompare _ _) eqn:Hc.
  - destruct (Z.even _); [lia|]. apply Qeq_alt in Hc. exfalso. lra.
  - lia.
  - apply Qgt_alt in Hc. exfalso. lra.
Qed.

Lemma round_half_even_monotone (x y : Q) :
  (x <= y)%Q -> round_half_even x <= round_half_even y.
Proof.
  intros H. pose proof (Qfloor_resp_le _ _ H) as Hf.
  pose proof (round_half_even_bounds x) as Hx.
  pose proof (round_half_even_bounds y) as Hy.
  destruct (Z.eq_dec (Qfloor x) (Qfloor y)) as [Heq|]; [|lia].
  unfold round_half_even in *. rewrite Heq in *.
  destruct (Qcompare (x - _) _) eqn:Hcx;
    destruct (Qcompare (y - _) _) eqn:Hcy;
    Qcompare_to_order;
    try destruct (Z.even _); try lia; exfalso; lra.
Qed.

(** Powers of two. *)
Lemma Qpow2_pos (e : Z) : (0 < 2 ^ e)%Q.
Proof. apply Qpower_0_lt. reflexivity. Qed.

Lemma Qpow2_le (a b : Z) : a <= b -> (2 ^ a <= 2 ^ b)%Q.
Proof. intros H. apply Qpower_le_compat_l; [exact H | discriminate]. Qed.

Lemma Qpow2_lt_inv (a b : Z) : (2 ^ a < 2 ^ b)%Q -> a < b.
Proof. intros H. apply (Qpower_lt_compat_l_inv 2); [exact H | reflexivity]. Qed.

Lemma Qpow2_split (a b : Z) : (2 ^ a == 2 ^ (a - b) * 2 ^ b)%Q.
Proof.
  rewrite <- Qpower_plus by discriminate.
  replace (a - b + b) with a by lia. reflexivity.
Qed.

Lemma Qpow2_inject (a : Z) : 0 <= a -> (2 ^ a == inject_Z (2 ^ a))%Q.
Proof. intros H. rewrite Zpower_Qpower by exact H. reflexivity. Qed.

(** [binade q] is the exponent of the power of two at or below [q]. *)
Lemma binade_spec (q : Q) :
  (0 < q)%Q -> (2 ^ binade q <= q)%Q /\ (q < 2 ^ (binade q + 1))%Q.
Proof.
  intros Hq. destruct q as [n d].
  assert (Hn : 0 < n) by (unfold Qlt in Hq; simpl in Hq; lia).
  unfold binade. cbn [Qnum Qden].
  pose proof (Z.log2_spec n Hn) as Ha.
  pose proof (Z.log2_spec (Z.pos d) (Pos2Z.is_pos d)) as Hb.
  pose proof (Z.log2_nonneg n) as Ha0.
  pose proof (Z.log2_nonneg (Z.pos d)) as Hb0.
  set (a := Z.log2 n) in *. set (b := Z.log2 (Z.pos d)) in *.
  unfold Z.succ in *.
  assert (Hpa : 0 < 2 ^ a) by (apply Z.pow_pos_nonneg; lia).
  assert (Hpb : 0 < 2 ^ b) by (apply Z.pow_pos_nonneg; lia).
  assert (Hsa : 2 ^ (a + 1) = 2 * 2 ^ a) by (rewrite Z.pow_add_r by lia; lia).
  assert (Hsb : 2 ^ (b + 1) = 2 * 2 ^ b) by (rewrite Z.pow_add_r by lia; lia).
  assert (Hlow : (2 ^ (a - b - 1) <= n # d)%Q).
  { replace (a - b - 1) with (a - (b + 1)) by lia.
    rewrite Qpower_minus by discriminate.
    rewrite (Qpow2_inject a), (Qpow2_inject (b + 1)) by lia.
    rewrite Qmake_Qdiv.
    apply Qle_shift_div_l; [change 0%Q with (inject_Z 0); rewrite <- Zlt_Qlt; lia|].
    unfold Qdiv. rewrite <- Qmult_assoc, (Qmult_comm (/ _)), Qmult_assoc.
    apply Qle_shift_div_r; [change 0%Q with (inject_Z 0); rewrite <- Zlt_Qlt; lia|].
    rewrite <- !inject_Z_mult, <- Zle_Qle. nia. }
  assert (Hup : (n # d < 2 ^ (a - b + 1))%Q).
  { replace (a - b + 1) with (a + 1 - b) by lia.
    rewrite Qpower_minus by discriminate.
    rewrite (Qpow2_inject (a + 1)), (Qpow2_inject b) by lia.
    rewrite Qmake_Qdiv.
    apply Qlt_shift_div_l; [change 0%Q with (inject_Z 0); rewrite <- Zlt_Qlt; lia|].
    unfold Qdiv. rewrite <- Qmult_assoc, (Qmult_comm (/ _)), Qmult_assoc.
    apply Qlt_shift_div_r; [change 0%Q with (inject_Z 0); rewrite <- Zlt_Qlt; lia|].
    rewrite <- !inject_Z_mult, <- Zlt_Qlt. nia. }
  destruct (Qle_bool (2 ^ (a - b)) (n # d)) eqn:Hc.
  - apply Qle_bool_iff in Hc. split; assumption.
  - split; [exact Hlow|].
    replace (a - b - 1 + 1) with (a - b) by lia.
    apply Qnot_le_lt. intros Hle. apply Qle_bool_iff in Hle. congruence.
Qed.

Lemma binade_monotone (x y : Q) :
  (0 < x)%Q -> (x <= y)%Q -> binade x <= binade y.
Proof.
  intros Hx Hxy.
  destruct (binade_spec x Hx) as [Hx1 _].
  destruct (binade_spec y) as [_ Hy2]; [lra|].
  assert (H : (2 ^ binade x < 2 ^ (binade y + 1))%Q) by lra.
  apply Qpow2_lt_inv in H. lia.
Qed.

Lemma double_ulp_pos (q : Q) : (0 < double_ulp q)%Q.
Proof. apply Qpow2_pos. Qed.

Lemma double_round_pos_nonneg (q : Q) : (0 <= q)%Q -> (0 <= double_round_pos q)%Q.
Proof.
  intros Hq. unfold double_round_pos.
  pose proof (double_ulp_pos q) as Hu.
  apply Qmult_le_0_compat; [|lra].
  change 0%Q with (inject_Z 0). rewrite <- Zle_Qle.
  apply round_half_even_ge. change (inject_Z 0) with 0%Q.
  apply Qle_shift_div_l; [exact Hu | lra].
Qed.

Lemma double_round_pos_monotone (x y : Q) :
  (0 < x)%Q -> (x <= y)%Q -> (double_round_pos x <= double_round_pos y)%Q.
Proof.
  intros Hx Hxy.
  assert (Hy : (0 < y)%Q) by lra.
  pose proof (binade_monotone x y Hx Hxy) as Hb.
  destruct (binade_spec x Hx) as [_ Hx2].
  destruct (binade_spec y Hy) as [Hy1 _].
  unfold double_round_pos, double_ulp, DBL_MIN_EXP, DBL_MANT_DIG.
  set (ex := Z.max (binade x) (-1021 - 1)).
  set (ey := Z.max (binade y) (-1021 - 1)).
  pose proof (Qpow2_pos (ex - (53 - 1))) as Hux.
  pose proof (Qpow2_pos (ey - (53 - 1))) as Huy.
  destruct (Z.eq_dec ex ey) as [Heq|Hne].
  - rewrite Heq in *.
    apply Qmult_le_compat_r; [|lra].
    rewrite <- Zle_Qle. apply round_half_even_monotone.
    apply Qmult_le_compat_r; [exact Hxy|].
    apply Qlt_le_weak, Qinv_lt_0_compat, Huy.
  - assert (Hlt : ex < ey) by lia.
    assert (Hey : ey = binade y) by lia.
    apply Qle_trans with (2 ^ (ex + 1))%Q; [|apply Qle_trans with (2 ^ ey)%Q].
    + rewrite (Qpow2_split (ex + 1) (ex - (53 - 1))).
      apply Qmult_le_compat_r; [|lra].
      replace (ex + 1 - (ex - (53 - 1))) with 53 by lia.
      rewrite (Qpow2_inject 53) by lia. rewrite <- Zle_Qle.
      apply round_half_even_le.
      rewrite <- (Qpow2_inject 53) by lia.
      apply Qle_shift_div_r; [exact Hux|].
      rewrite <- Qpower_plus by discriminate.
      replace (53 + (ex - (53 - 1))) with (ex + 1) by lia.
      apply Qle_trans with (2 ^ (binade x + 1))%Q; [lra|].
      apply Qpow2_le. lia.
    + apply Qpow2_le. lia.
    + rewrite (Qpow2_split ey (ey - (53 - 1))) at 1.
      apply Qmult_le_compat_r; [|lra].
      replace (ey - (ey - (53 - 1))) with 52 by lia.
      rewrite (Qpow2_inject 52) by lia. rewrite <- Zle_Qle.
      apply round_half_even_ge.
      rewrite <- (Qpow2_inject 52) by lia.
      apply Qle_shift_div_l; [exact Huy|].
      rewrite <- Qpower_plus by discriminate.
      replace (52 + (ey - (53 - 1))) with ey by lia.
      rewrite Hey. exact Hy1.
Qed.

(** The rounding to the nearest double keeps the sign and the order. *)
Lemma double_round_nonneg (x : Q) : (0 <= x)%Q -> (0 <= double_round x)%Q.
Proof.
  intros Hx. unfold double_round.
  destruct (Qcompare x 0) eqn:Hc.
  - lra.
  - apply Qlt_alt in Hc. lra.
  - apply double_round_pos_nonneg, Hx.
Qed.

Lemma double_round_nonpos (x : Q) : (x <= 0)%Q -> (double_round x <= 0)%Q.
Proof.
  intros Hx. unfold double_round.
  destruct (Qcompare x 0) eqn:Hc.
  - lra.
  - pose proof (double_round_pos_nonneg (- x)). lra.
  - apply Qgt_alt in Hc. lra.
Qed.

Lemma double_round_monotone (x y : Q) :
  (x <= y)%Q -> (double_round x <= double_round y)%Q.
Proof.
  intros Hxy.
  destruct (Qlt_le_dec 0 x) as [Hx|Hx].
  - assert (Hy : (0 < y)%Q) by lra.
    unfold double_round.
    rewrite (proj1 (Qgt_alt x 0) Hx), (proj1 (Qgt_alt y 0) Hy).
    apply double_round_pos_monotone; assumption.
  - destruct (Qlt_le_dec y 0) as [Hy|Hy].
    + assert (Hx' : (x < 0)%Q) by lra.
      unfold double_round.
      rewrite (proj1 (Qlt_alt x 0) Hx'), (proj1 (Qlt_alt y 0) Hy).
      apply Qopp_le_compat.
      apply double_round_pos_monotone; lra.
    + apply Qle_trans with 0%Q;
        [apply double_round_nonpos | apply double_round_nonneg]; assumption.
Qed.

Lemma double_round_comp (x y : Q) : (x == y)%Q -> (double_round x == double_round y)%Q.
Proof.
  intros H. apply Qle_antisym; apply double_round_monotone; lra.
Qed.

(** An [int] expression whose value fits is not affected by the wrap-around.
    The conversion of an integer that is not negative, and the double
    product of two numbers that are not negative, are not negative. *)
Lemma int_wrap_small (z : Z) : - 2 ^ 31 <= z < 2 ^ 31 -> int_wrap z = z.
Proof.
  intro H. unfold int_wrap. rewrite Z.mod_small; lia.
Qed.

Lemma int_to_real_nonneg (z : Z) : 0 <= z -> (0 <= int_to_real z)%Q.
Proof.
  intro H. apply double_round_nonneg.
  change 0%Q with (inject_Z 0). rewrite <- Zle_Qle. exact H.
Qed.


(** Case analysis on the condition of a conditional in the goal. *)
Ltac break_if :=
  match goal with
  | |- context [if ?c then _ else _] => destruct c
  end.

(** ** Array writes *)

Lemma list_set_length {A : Type} (l : list A) (i : nat) (v : A) :
  List.length (list_set l i v) = List.length l.
Proof.
  revert i. induction l as [|h t IH]; intros [|i]; simpl; auto.
Qed.

Lemma nth_list_set_same {A : Type} (l : list A) (i : nat) (v d : A) :
  (i < List.length l)%nat -> nth i (list_set l i v) d = v.
Proof.
  revert i. induction l as [|h t IH]; intros [|i] H; simpl in *; try lia; auto.
  apply IH. lia.
Qed.

Lemma nth_list_set_other {A : Type} (l : list A) (i k : nat) (v d : A) :
  k <> i -> nth k (list_set l i v) d = nth k l d.
Proof.
  revert i k. induction l as [|h t IH]; intros [|i] [|k] H; simpl; auto; try congruence.
Qed.

Section LnsProofs.

Context {RNG : Type} {rngops : RandNumGen RNG} {solver : SubSolver}.

(** ** Statistics reset *)

(** Every counter that [neighborhoodStatsReset] assigns is zero afterwards. *)
Lemma neighborhoodStatsReset_assigned_zero (s : NH_STATS) :
  let r := neighborhoodStatsReset s in
  usednodes r = 0 /\ lpiterations r = 0 /\ totalgapclosed r = 0%Q /\ nruns r = 0 /\
  nrunsbestsol r = 0 /\ nsolsfound r = 0 /\ nbestsolsfound r = 0 /\ presolrounds r = 0 /\
  totalnbinfixings r = 0 /\ totalnimplintfixings r = 0 /\ totalncontfixings r = 0 /\
  totalnfixings r = 0.
Proof.
  cbv zeta. unfold neighborhoodStatsReset. simpl. repeat split; reflexivity.
Qed.

(** The count of integer fixings passes through the reset unchanged. *)
Lemma neighborhoodStatsReset_totalnintfixings (s : NH_STATS) :
  totalnintfixings (neighborhoodStatsReset s) = totalnintfixings s.
Proof. reflexivity. Qed.

(** C6.  The specification asks that after [neighborhoodStatsReset] every
    counter is zero, [totalnintfixings] included.  On statistics whose count
    of integer fixings is 7 the reset returns a record whose count of integer
    fixings is still 7, while the counts of all fixings and of binary fixings
    are zero. *)
Theorem neighborhoodStatsReset_keeps_totalnintfixings :
  totalnintfixings stats_ex = 7 /\
  totalnintfixings (neighborhoodStatsReset stats_ex) = 7 /\
  totalnintfixings (neighborhoodStatsReset stats_ex) <> 0 /\
  totalnfixings (neighborhoodStatsReset stats_ex) = 0 /\
  totalnbinfixings (neighborhoodStatsReset stats_ex) = 0.
Proof.
  repeat split; try reflexivity. simpl. discriminate.
Qed.

(** ** Statistics of a run *)

(** C5, as the code has it.  Over one run, that is
    [initNeighborhoodStatsRun] in the outer state before the sub-solve
    followed by [updateNeighborhoodStats] in the outer state after it, the LP
    iterations and the nodes of the sub-SCIP are added, [nruns] grows by one,
    [nrunsbestsol] grows by [DEFAULT_BESTSOLWEIGHT = 3] when the sub-SCIP's
    own counter of best solutions is positive, else by one when the
    sub-SCIP's own counter of solutions is positive, else not at all, and
    [nsolsfound] and [nbestsolsfound] grow by the difference of the outer
    counters over the run.  The remaining fields keep their values. *)
Theorem updateNeighborhoodStats_run
    (before after : SCIP) (neighborhood : NH RNG) (subscip : SUBSCIP) :
  let s := stats neighborhood in
  let s' := stats (updateNeighborhoodStats after
                     (initNeighborhoodStatsRun before neighborhood) subscip) in
  DEFAULT_BESTSOLWEIGHT = 3 /\
  lpiterations s' = lpiterations s + SCIPgetNLPIterations subscip /\
  usednodes s' = usednodes s + SCIPgetNNodes subscip /\
  nruns s' = nruns s + 1 /\
  nrunsbestsol s' =
    nrunsbestsol s +
    (if 0 <? SCIPsubGetNBestSolsFound subscip then DEFAULT_BESTSOLWEIGHT
     else if 0 <? SCIPsubGetNSolsFound subscip then 1 else 0) /\
  nsolsfound s' = nsolsfound s + (SCIPgetNSolsFound after - SCIPgetNSolsFound before) /\
  nbestsolsfound s' =
    nbestsolsfound s + (SCIPgetNBestSolsFound after - SCIPgetNBestSolsFound before) /\
  totalgapclosed s' = totalgapclosed s /\ presolrounds s' = presolrounds s /\
  totalnbinfixings s' = totalnbinfixings s /\ totalnintfixings s' = totalnintfixings s /\
  totalnimplintfixings s' = totalnimplintfixings s /\
  totalncontfixings s' = totalncontfixings s /\ totalnfixings s' = totalnfixings s.
Proof.
  cbv zeta. unfold updateNeighborhoodStats, initNeighborhoodStatsRun, NH_set_stats. simpl.
  rewrite !Z.gtb_ltb.
  repeat split; try reflexivity; try lia.
  destruct (0 <? SCIPsubGetNBestSolsFound subscip);
    [|destruct (0 <? SCIPsubGetNSolsFound subscip)]; lia.
Qed.

(** ** EXP3 update *)


(** ** Fixing step *)

(** The flag that [neighborhoodFixVariables] returns is the flag its
    callback left, whatever the number of fixings. *)
Lemma neighborhoodFixVariables_success
    (scip : SCIP) (neighborhood : NH RNG) (bufs : FIXINGS)
    (callback : DECL_VARFIXINGS RNG) :
  varfixings neighborhood = Some callback ->
  let out := callback scip (fixingrate neighborhood) (data_mutation neighborhood)
               (mkFIXINGS (varbuf bufs) (valbuf bufs) 0 false) in
  fst (neighborhoodFixVariables scip neighborhood bufs) = fst out /\
  success (snd (snd (neighborhoodFixVariables scip neighborhood bufs)))
    = success (snd (snd out)) /\
  nfixings (snd (snd (neighborhoodFixVariables scip neighborhood bufs)))
    = nfixings (snd (snd out)).
Proof.
  intros Hcb. cbv zeta. unfold neighborhoodFixVariables. rewrite Hcb. simpl.
  destruct (callback scip (fixingrate neighborhood) (data_mutation neighborhood)
              (mkFIXINGS (varbuf bufs) (valbuf bufs) 0 false))
    as [rc [[scip' data'] b']].
  destruct rc; simpl; [|auto].
  destruct (success b') eqn:Es; simpl.
  - break_if; simpl; auto.
  - auto.
Qed.

(** C10.  Without a variable-fixing callback, [neighborhoodFixVariables]
    returns [SCIP_OKAY] with [success = TRUE] and [nfixings = 0], and the
    outer instance and the two buffers are as they were passed in. *)
Theorem neighborhoodFixVariables_no_callback
    (scip : SCIP) (neighborhood : NH RNG) (bufs : FIXINGS) :
  varfixings neighborhood = None ->
  fst (neighborhoodFixVariables scip neighborhood bufs) = SCIP_OKAY /\
  success (snd (snd (neighborhoodFixVariables scip neighborhood bufs))) = true /\
  nfixings (snd (snd (neighborhoodFixVariables scip neighborhood bufs))) = 0 /\
  fst (fst (snd (neighborhoodFixVariables scip neighborhood bufs))) = scip /\
  varbuf (snd (snd (neighborhoodFixVariables scip neighborhood bufs))) = varbuf bufs /\
  valbuf (snd (snd (neighborhoodFixVariables scip neighborhood bufs))) = valbuf bufs.
Proof.
  intro Hnone. unfold neighborhoodFixVariables. rewrite Hnone. simpl.
  break_if; simpl; repeat split; reflexivity.
Qed.


(** ** Frame of the callbacks that do not shuffle *)

Lemma varFixingsRens_frame
    (scip : SCIP) (fr : NH_FIXINGRATE) (data : option (DATA_MUTATION RNG)) (bufs : FIXINGS) :
  fst (varFixingsRens scip fr data bufs) = SCIP_OKAY /\
  fst (snd (varFixingsRens scip fr data bufs)) = (scip, data).
Proof.
  unfold varFixingsRens.
  destruct (hasCurrentNodeLP scip), (lpsolstat_optimal scip),
    (prob_nbinvars scip + prob_nintvars scip =? 0); simpl; auto.
Qed.

Lemma varFixingsRins_frame
    (scip : SCIP) (fr : NH_FIXINGRATE) (data : option (DATA_MUTATION RNG)) (bufs : FIXINGS) :
  fst (varFixingsRins scip fr data bufs) = SCIP_OKAY /\
  fst (snd (varFixingsRins scip fr data bufs)) = (scip, data).
Proof.
  unfold varFixingsRins, SCIPgetBestSol.
  destruct (hasCurrentNodeLP scip), (lpsolstat_optimal scip); simpl; auto.
  destruct (bestsol scip) as [inc|]; simpl; auto.
  destruct (sol_origin_original inc),
    (prob_nbinvars scip + prob_nintvars scip =? 0); simpl; auto.
Qed.

(** ** Budget *)



(** ** Objective cutoff *)





(** ** Epsilon greedy *)

(** Invariant of the reward loop: when the arm [i] is the first maximum of
    the arms before [j] and [maxreward] is its reward, the loop returns the
    first maximum of the arms before [j + n]. *)
Lemma epsGreedyLoop_firstMax (reward : Z -> Q) (n : nat) :
  forall (j i : Z),
    firstMaxArm reward j i ->
    firstMaxArm reward (j + Z.of_nat n) (epsGreedyLoop reward n j i (reward i)).
Proof.
  induction n as [|n IH]; intros j i (Hi & Hmax & Hfirst).
  - simpl. rewrite Z.add_0_r. repeat split; auto; lia.
  - cbn [epsGreedyLoop].
    replace (j + Z.of_nat (S n)) with ((j + 1) + Z.of_nat n) by lia.
    destruct (Qlt_bool (reward i) (reward j)) eqn:E.
    + apply Qlt_bool_iff in E. apply IH. repeat split; try lia.
      * intros k Hk. destruct (Z.eq_dec k j) as [->|Hne]; [apply Qle_refl|].
        apply Qle_trans with (reward i); [apply Hmax; lia | apply Qlt_le_weak; exact E].
      * intros k Hk. apply Qle_lt_trans with (reward i); [apply Hmax; lia | exact E].
    + apply Qlt_bool_false_iff in E. apply IH. repeat split; try lia.
      * intros k Hk. destruct (Z.eq_dec k j) as [->|Hne]; [exact E|].
        apply Hmax. lia.
      * exact Hfirst.
Qed.

(** C4.  With a number of choices that is not negative and a generator whose
    integer draws respect their range, [epsGreedySelect] returns [-1] exactly
    when there is no choice.  Otherwise it draws [u] from [[0, 1]]: when
    [u <= eps] it returns the arm of greatest reward with the lowest index,
    and when [u > eps] it returns the generator's integer draw from
    [[0, nchoices - 1]], an index of an arm. *)
Theorem epsGreedySelect_spec {U : Type}
    (epsnchoices : U -> Z) (epsreward : U -> Z -> Q) (userptr : U) (epsgreedy : EPSGREEDY RNG) :
  RandomGetInt_in_range ->
  0 <= epsnchoices userptr ->
  let nchoices := epsnchoices userptr in
  let i := fst (epsGreedySelect epsnchoices epsreward userptr epsgreedy) in
  let u := fst (SCIPrandomGetReal (epsgreedy_rng epsgreedy) 0%Q 1%Q) in
  let rng := snd (SCIPrandomGetReal (epsgreedy_rng epsgreedy) 0%Q 1%Q) in
  (i = -1 <-> nchoices = 0) /\
  (nchoices <> 0 -> (u <= eps epsgreedy)%Q -> firstMaxArm (epsreward userptr) nchoices i) /\
  (nchoices <> 0 -> (eps epsgreedy < u)%Q ->
     i = fst (SCIPrandomGetInt rng 0 (nchoices - 1)) /\ 0 <= i < nchoices).
Proof.
  intros Hrng Hn. cbv zeta. unfold epsGreedySelect.
  destruct (epsnchoices userptr =? 0) eqn:E0.
  - apply Z.eqb_eq in E0. simpl. repeat split; auto; intros; congruence.
  - apply Z.eqb_neq in E0.
    destruct (SCIPrandomGetReal (epsgreedy_rng epsgreedy) 0%Q 1%Q) as [u rng] eqn:Er.
    cbn [fst snd].
    assert (Hfirst : firstMaxArm (epsreward userptr) (epsnchoices userptr)
                       (epsGreedyLoop (epsreward userptr)
                          (Z.to_nat (epsnchoices userptr - 1)) 1 0 (epsreward userptr 0))).
    { replace (epsnchoices userptr)
        with (1 + Z.of_nat (Z.to_nat (epsnchoices userptr - 1))) at 1 by lia.
      apply epsGreedyLoop_firstMax. repeat split; try lia.
      intros j Hj. replace j with 0 by lia. apply Qle_refl. }
    assert (Hdraw : 0 <= fst (SCIPrandomGetInt rng 0 (epsnchoices userptr - 1))
                    <= epsnchoices userptr - 1) by (apply Hrng; lia).
    destruct (Qle_bool u (eps epsgreedy)) eqn:Eu.
    + cbn [fst]. split; [|split].
      * split; [|intro; congruence].
        intro Hi. destruct Hfirst as [Hrange _]. lia.
      * intros _ _. exact Hfirst.
      * intros _ Hlt. apply Qle_bool_iff in Eu. exfalso. exact (Qlt_not_le _ _ Hlt Eu).
    + destruct (SCIPrandomGetInt rng 0 (epsnchoices userptr - 1)) as [k rng'] eqn:Ek.
      cbn [fst] in *. split; [|split].
      * split; [|intro; congruence]. intro Hi. lia.
      * intros _ Hle. apply Qle_bool_iff in Hle. congruence.
      * intros _ _. split; [reflexivity | lia].
Qed.


(** ** Result of one call *)

(** C8, as the code has it.  [heurExecLns] never returns [SCIP_FOUNDSOL].
    Its result is [SCIP_DELAYED] exactly when the budget check fails, and the
    call then returns [SCIP_OKAY].  When the budget check passes and the
    fixing step of the selected neighborhood declines, the result is
    [SCIP_DIDNOTRUN] and the call returns [SCIP_OKAY]; a call that returns
    [SCIP_OKAY] with [SCIP_DIDNOTRUN] is such a call.  The result is
    [SCIP_DIDNOTFIND] exactly when the budget check passes and the fixing
    step succeeds, in which case the sub-solve is launched; neither a
    failure of a framework call after that point nor the acceptance of a
    solution by the outer store during the sub-solve changes it. *)
Theorem heurExecLns_result (scip : SCIP) (heur : SCIP_HEUR RNG) :
  let out := heurExecLns scip heur in
  let result := snd (snd out) in
  let run := snd (determineLimits scip heur true) in
  result <> SCIP_FOUNDSOL /\
  (result = SCIP_DELAYED <-> run = false) /\
  (run = false -> fst out = SCIP_OKAY) /\
  (run = true -> fixingDeclined scip heur = true ->
   result = SCIP_DIDNOTRUN /\ fst out = SCIP_OKAY) /\
  (fst out = SCIP_OKAY -> result = SCIP_DIDNOTRUN -> fixingDeclined scip heur = true) /\
  (result = SCIP_DIDNOTFIND <-> run = true /\ fixingSucceeded scip heur = true).
Proof.
  cbv zeta.
  unfold heurExecLns, fixingDeclined, fixingSucceeded, fixingStepReached,
    selectedFixings, selectedIndex.
  destruct (determineLimits scip heur true) as [solvelimits run].
  destruct run; cbn [negb snd fst].
  2:{ repeat split; try discriminate; auto. intros [H _]. discriminate. }
  destruct (SCIP_CALLs [CALL_SCIPgetVarsData] scip).
  2:{ cbn [fst snd andb]. repeat split; try discriminate; auto.
      intros [_ H]. discriminate. }
  destruct (epsGreedySelect epsNChoicesLns epsRewardLns (SCIPheurGetData heur)
              (epsgreedynh (SCIPheurGetData heur))) as [idx epsgreedy].
  cbn [fst snd HEURDATA_set_epsgreedynh neighborhoods nneighborhoods].
  destruct ((idx <? 0) || (nneighborhoods (SCIPheurGetData heur) <=? idx)).
  { cbn [fst snd andb negb]. repeat split; try discriminate; auto.
    intros [_ H]. discriminate. }
  destruct (SCIP_CALLs bufferCalls scip).
  2:{ cbn [fst snd andb negb]. repeat split; try discriminate; auto.
      intros [_ H]. discriminate. }
  destruct (neighborhoodFixVariables scip
              (nth (Z.to_nat idx) (neighborhoods (SCIPheurGetData heur)) NH_null)
              (mkFIXINGS (repeat NULLVAR (List.length (prob_vars scip)))
                         (repeat 0%Q (List.length (prob_vars scip))) 0 false))
    as [retcode [[scip1 neighborhood] bufs]].
  destruct retcode.
  2:{ cbn [fst snd andb negb]. repeat split; try discriminate; auto.
      intros [_ H]. discriminate. }
  cbn [fst snd andb negb].
  destruct (success bufs); cbn [negb].
  2:{ cbn [fst snd]. repeat split; try discriminate; auto.
      intros [_ H]. discriminate. }
  destruct (SCIP_CALLs launchCalls scip1).
  2:{ cbn [fst snd]. repeat split; try discriminate; auto. }
  destruct (SCIPsolve _) as [events subscip].
  destruct (handleEvents _ _ _ _) as [scip2 interrupted].
  cbn [fst snd]. repeat split; try discriminate; auto.
Qed.

End LnsProofs.

(** * The properties on concrete inputs *)

(** The replaying generator respects the range of an integer draw. *)
Lemma replayGetInt_in_range : RandomGetInt_in_range (rngops := replayRandNumGen).
Proof.
  intros rng lo hi Hle.
  change (lo <= lo + Qfloor (hd 0%Q rng * inject_Z (hi - lo + 1))%Q mod (hi - lo + 1) <= hi).
  generalize (Qfloor (hd 0%Q rng * inject_Z (hi - lo + 1))%Q). intro z.
  pose proof (Z.mod_pos_bound z (hi - lo + 1)) as Hb.
  lia.
Qed.

(** C1.  The specification asks that the flag of [neighborhoodFixVariables]
    is [TRUE] only when the number of fixings reaches
    [targetfixingrate * nvars].  On an outer problem with four binary
    variables whose LP values are all one half, the RENS callback succeeds
    with no fixing; the target is [0.25 * 4 = 1]; the flag returned is
    [TRUE]. *)
Theorem neighborhoodFixVariables_accepts_below_target :
  let out := neighborhoodFixVariables scip_ex rens_ex bufs_ex in
  fst out = SCIP_OKAY /\
  nfixings (snd (snd out)) = 0 /\
  (targetfixingrate (fixingrate rens_ex) * inject_Z (SCIPgetNVars scip_ex) == 1)%Q /\
  (inject_Z (nfixings (snd (snd out)))
   < targetfixingrate (fixingrate rens_ex) * inject_Z (SCIPgetNVars scip_ex))%Q /\
  success (snd (snd out)) = true.
Proof.
  cbv zeta. repeat split.
Qed.

(** C7.  The specification asks that the variable array of the outer problem
    is the same after a fixing callback as before.  On an outer problem with the
    variables [1, 2, 3, 4], an incumbent and a generator whose first draw
    from [[0, 3]] is 2, the mutation callback returns the outer problem with
    the variables [3, 2, 1, 4]. *)
Theorem varFixingsMutation_permutes_outer_vars :
  let out := neighborhoodFixVariables scip_ex mutation_ex bufs_ex in
  fst out = SCIP_OKAY /\
  prob_vars scip_ex = [1; 2; 3; 4]%nat /\
  prob_vars (fst (fst (snd out))) = [3; 2; 1; 4]%nat /\
  prob_vars (fst (fst (snd out))) <> prob_vars scip_ex.
Proof.
  cbv zeta. repeat split. vm_compute. discriminate.
Qed.

(** C8, as the specification states it, fails.  With one neighborhood
    without callback
    and a nested solve that finds one solution, which the outer store
    accepts, the sub-solve is launched, the outer solution counter grows by
    one, and the result is [SCIP_DIDNOTFIND], not [SCIP_FOUNDSOL]. *)
Lemma heurExecLns_accepted_not_FOUNDSOL :
  let out := heurExecLns (rngops := replayRandNumGen) (solver := scriptedSolver)
               scip_ex heur_ex in
  fst out = SCIP_OKAY /\
  acceptedDuringRun (rngops := replayRandNumGen) (solver := scriptedSolver)
    scip_ex heur_ex = true /\
  SCIPgetNSolsFound (fst (fst (snd out))) = SCIPgetNSolsFound scip_ex + 1 /\
  snd (snd out) = SCIP_DIDNOTFIND /\
  snd (snd out) <> SCIP_FOUNDSOL.
Proof.
  cbv zeta. repeat split. vm_compute. discriminate.
Qed.

(** A failure after the launch: when [SCIPcreate] fails the call returns
    [SCIP_ERROR] with the result [SCIP_DIDNOTFIND]; no run is counted and no
    node is charged. *)
Example heurExecLns_launch_failure :
  let out := heurExecLns (rngops := replayRandNumGen) (solver := failingCreateSolver)
               scip_ex heur_ex in
  let neighborhood := nth 0 (neighborhoods (SCIPheurGetData (snd (fst (snd out))))) NH_null in
  fst out = SCIP_ERROR /\
  snd (snd out) = SCIP_DIDNOTFIND /\
  fixingSucceeded (rngops := replayRandNumGen) (solver := failingCreateSolver)
    scip_ex heur_ex = true /\
  nruns (stats neighborhood) = nruns (stats nocallback_ex) /\
  heur_usednodes (SCIPheurGetData (snd (fst (snd out))))
    = heur_usednodes (SCIPheurGetData heur_ex).
Proof.
  cbv zeta. repeat split.
Qed.

(** C5, as the specification states it, fails.  The nested solve finds one
    solution, its first and therefore a best one of the sub-problem; the
    outer store rejects it, so the outer solve has no new best solution and
    no new solution at all; [nrunsbestsol] of the neighborhood nevertheless
    grows from 0 to 3. *)
Lemma updateNeighborhoodStats_counts_rejected_solution :
  let out := heurExecLns (rngops := replayRandNumGen) (solver := rejectingSolver)
               scip_ex heur_ex in
  let neighborhood := nth 0 (neighborhoods (SCIPheurGetData (snd (fst (snd out))))) NH_null in
  fst out = SCIP_OKAY /\
  snd (snd out) = SCIP_DIDNOTFIND /\
  acceptedDuringRun (rngops := replayRandNumGen) (solver := rejectingSolver)
    scip_ex heur_ex = false /\
  SCIPgetNBestSolsFound (fst (fst (snd out))) = SCIPgetNBestSolsFound scip_ex /\
  SCIPgetNSolsFound (fst (fst (snd out))) = SCIPgetNSolsFound scip_ex /\
  nrunsbestsol (stats nocallback_ex) = 0 /\
  nruns (stats neighborhood) = 1 /\
  nrunsbestsol (stats neighborhood) = 3.
Proof.
  cbv zeta. repeat split.
Qed.




(** The selection on three arms with the rewards 1/3, 2/3, 2/3, with
    [eps = 1] and the replaying generator: the second arm is selected. *)
Lemma epsGreedySelect_spec_witness :
  RandomGetInt_in_range (rngops := replayRandNumGen) /\
  0 <= 3 /\
  firstMaxArm (rewards_ex tt) 3
    (fst (epsGreedySelect (rngops := replayRandNumGen) (fun _ : unit => 3) rewards_ex tt
            (mkEPSGREEDY 1%Q [(1 # 2)%Q]))) /\
  fst (epsGreedySelect (rngops := replayRandNumGen) (fun _ : unit => 3) rewards_ex tt
         (mkEPSGREEDY 1%Q [(1 # 2)%Q])) = 1.
Proof.
  assert (H2 : 0 <= 3) by lia.
  pose proof (epsGreedySelect_spec (rngops := replayRandNumGen) (fun _ : unit => 3)
                rewards_ex tt (mkEPSGREEDY 1%Q [(1 # 2)%Q]) replayGetInt_in_range H2) as H.
  cbv zeta in H. destruct H as (_ & Hmax & _).
  split; [exact replayGetInt_in_range | split; [exact H2 | split; [|reflexivity]]].
  apply Hmax; [lia | vm_compute; discriminate].
Defined.


(** The fixing step on the neighborhood without callback. *)
Lemma neighborhoodFixVariables_no_callback_witness :
  varfixings nocallback_ex = None /\
  fst (neighborhoodFixVariables scip_ex nocallback_ex bufs_ex) = SCIP_OKAY /\
  success (snd (snd (neighborhoodFixVariables scip_ex nocallback_ex bufs_ex))) = true /\
  nfixings (snd (snd (neighborhoodFixVariables scip_ex nocallback_ex bufs_ex))) = 0.
Proof.
  assert (H1 : varfixings nocallback_ex = None) by reflexivity.
  destruct (neighborhoodFixVariables_no_callback scip_ex nocallback_ex bufs_ex H1)
    as (Hr & Hs & Hn & _).
  split; [exact H1 | split; [exact Hr | split; [exact Hs | exact Hn]]].
Defined.

(** * Further properties of the heuristic *)

Lemma MAX_ge_l (x y : Q) : (x <= MAX x y)%Q.
Proof.
  unfold MAX. destruct (Qle_bool y x) eqn:E; [apply Qle_refl|].
  apply Qle_bool_false_iff in E. apply Qlt_le_weak. exact E.
Qed.

Lemma MAX_ge_r (x y : Q) : (y <= MAX x y)%Q.
Proof.
  unfold MAX. destruct (Qle_bool y x) eqn:E; [|apply Qle_refl].
  apply Qle_bool_iff. exact E.
Qed.

Lemma Forall_list_set {A : Type} (P : A -> Prop) (l : list A) (i : nat) (v : A) :
  Forall P l -> P v -> Forall P (list_set l i v).
Proof.
  intros Hl Hv. revert i. induction Hl as [|h t Hh Ht IH]; intros [|i]; simpl; auto.
Qed.

Lemma Forall_nth_default {A : Type} (P : A -> Prop) (l : list A) (i : nat) (d : A) :
  Forall P l -> P d -> P (nth i l d).
Proof.
  intros Hl Hd. revert i. induction Hl as [|h t Hh Ht IH]; intros [|i]; simpl; auto.
Qed.

Section LnsMoreProofs.

Context {RNG : Type} {rngops : RandNumGen RNG} {seedops : RandNumSeed RNG}
        {solver : SubSolver}.

(** ** Rewards *)

(** X1.  While a neighborhood's counters satisfy
    [0 <= nrunsbestsol <= DEFAULT_BESTSOLWEIGHT * nruns] and the product
    [DEFAULT_BESTSOLWEIGHT * nruns] fits into an [int], its reward lies in
    [[0, 1]]. *)
Theorem epsRewardLns_range (heurdata : SCIP_HEURDATA RNG) (i : Z) :
  statsRewardInv (stats (nth (Z.to_nat i) (neighborhoods heurdata) NH_null)) ->
  DEFAULT_BESTSOLWEIGHT * nruns (stats (nth (Z.to_nat i) (neighborhoods heurdata) NH_null))
    <= INT_MAX ->
  (0 <= epsRewardLns heurdata i <= 1)%Q.
Proof.
  intros (Hruns & Hlo & Hhi) Hmax. unfold epsRewardLns.
  set (s := stats (nth (Z.to_nat i) (neighborhoods heurdata) NH_null)) in *.
  unfold DEFAULT_BESTSOLWEIGHT, INT_MAX in *.
  rewrite int_wrap_small by lia.
  set (n := int_to_real (nrunsbestsol s)).
  set (d := MAX 1 (int_to_real (nruns s * 3))).
  assert (Hn : (0 <= n)%Q) by (apply int_to_real_nonneg; exact Hlo).
  assert (Hd1 : (1 <= d)%Q) by apply MAX_ge_l.
  assert (Hd : (0 < d)%Q) by (apply Qlt_le_trans with 1%Q; [reflexivity | exact Hd1]).
  assert (Hnd : (n <= d)%Q).
  { apply Qle_trans with (int_to_real (nruns s * 3)); [|apply MAX_ge_r].
    apply double_round_monotone. rewrite <- Zle_Qle. lia. }
  unfold double_div. split.
  - apply double_round_nonneg.
    apply Qle_shift_div_l; [exact Hd|]. rewrite Qmult_0_l. exact Hn.
  - apply Qle_trans with (double_round 1); [|vm_compute; discriminate].
    apply double_round_monotone.
    apply Qle_shift_div_r; [exact Hd|]. rewrite Qmult_1_l. exact Hnd.
Qed.

(** ** The counters of the selected neighborhood *)

Lemma neighborhoodStatsReset_inv (s : NH_STATS) : statsRewardInv (neighborhoodStatsReset s).
Proof. unfold statsRewardInv, DEFAULT_BESTSOLWEIGHT. simpl. lia. Qed.

Lemma updateNeighborhoodStats_inv (scip : SCIP) (neighborhood : NH RNG) (subscip : SUBSCIP) :
  statsRewardInv (stats neighborhood) ->
  statsRewardInv (stats (updateNeighborhoodStats scip neighborhood subscip)).
Proof.
  unfold statsRewardInv, updateNeighborhoodStats, NH_set_stats.
  cbn [stats nruns nrunsbestsol]. unfold DEFAULT_BESTSOLWEIGHT. intros (H1 & H2 & H3).
  destruct (SCIPsubGetNBestSolsFound subscip >? 0);
    [|destruct (SCIPsubGetNSolsFound subscip >? 0)]; lia.
Qed.

(** Of the neighborhood, the fixing step changes the private data only. *)
Lemma neighborhoodFixVariables_neighborhood
    (scip : SCIP) (neighborhood : NH RNG) (bufs : FIXINGS) :
  exists data,
    snd (fst (snd (neighborhoodFixVariables scip neighborhood bufs)))
      = NH_set_data neighborhood data.
Proof.
  unfold neighborhoodFixVariables.
  destruct (varfixings neighborhood) as [callback|].
  - destruct (callback _ _ _ _) as [rc [[scip' data'] b']].
    exists data'. destruct rc; reflexivity.
  - exists (data_mutation neighborhood). cbn. reflexivity.
Qed.

(** Case analysis along the paths of [heurExecLns]: the selected index is
    invalid; the sub-solve is launched and run; a framework call of the
    launch fails; the fixing step declines; it fails; the buffers are not
    allocated; the variables are not obtained; the budget fails. *)
Ltac heurExecLns_paths scip heur :=
  unfold heurExecLns;
  destruct (determineLimits scip heur true) as [solvelimits run] eqn:Elimits;
  destruct run; cbn [negb snd fst];
  [ destruct (SCIP_CALLs [CALL_SCIPgetVarsData] scip) eqn:Evars;
    [ destruct (epsGreedySelect epsNChoicesLns epsRewardLns (SCIPheurGetData heur)
                  (epsgreedynh (SCIPheurGetData heur))) as [idx epsgreedy] eqn:Eselect;
      cbn [fst snd HEURDATA_set_epsgreedynh neighborhoods nneighborhoods];
      destruct ((idx <? 0) || (nneighborhoods (SCIPheurGetData heur) <=? idx)) eqn:Eidx;
      [ | destruct (SCIP_CALLs bufferCalls scip) eqn:Ebufs;
          [ destruct (neighborhoodFixVariables scip
                        (nth (Z.to_nat idx) (neighborhoods (SCIPheurGetData heur)) NH_null)
                        (mkFIXINGS (repeat NULLVAR (List.length (prob_vars scip)))
                                   (repeat 0%Q (List.length (prob_vars scip))) 0 false))
              as [retcode [[scip1 neighborhood] bufs]] eqn:Efix;
            destruct retcode;
            [ destruct (success bufs) eqn:Esuccess; cbn [negb];
              [ destruct (SCIP_CALLs launchCalls scip1) eqn:Elaunch;
                [ destruct (SCIPsolve _) as [events subscip] eqn:Esolve;
                  destruct (handleEvents _ _ _ _) as [scip2 interrupted] eqn:Ehandle
                | ]
              | ]
            | ]
          | ] ]
    | ]
  | ];
  cbn [fst snd].

(** X2.  One call of [heurExecLns] keeps the relation
    [0 <= nrunsbestsol <= DEFAULT_BESTSOLWEIGHT * nruns] on every registered
    neighborhood, on every path. *)
Theorem heurExecLns_keeps_reward_invariant (scip : SCIP) (heur : SCIP_HEUR RNG) :
  Forall (fun nh => statsRewardInv (stats nh)) (neighborhoods (SCIPheurGetData heur)) ->
  Forall (fun nh => statsRewardInv (stats nh))
         (neighborhoods (SCIPheurGetData (snd (fst (snd (heurExecLns scip heur)))))).
Proof.
  intro Hall.
  assert (Hnull : statsRewardInv (stats (NH_null (RNG := RNG)))).
  { unfold statsRewardInv, DEFAULT_BESTSOLWEIGHT. simpl. lia. }
  heurExecLns_paths scip heur; cbn [SCIPheurGetData neighborhoods HEURDATA_set_neighborhood
                                    HEURDATA_add_usednodes HEURDATA_set_epsgreedynh];
    try exact Hall;
    destruct (neighborhoodFixVariables_neighborhood scip
                (nth (Z.to_nat idx) (neighborhoods (SCIPheurGetData heur)) NH_null)
                (mkFIXINGS (repeat NULLVAR (List.length (prob_vars scip)))
                           (repeat 0%Q (List.length (prob_vars scip))) 0 false))
      as [data Hdata];
    rewrite Efix in Hdata; cbn [fst snd] in Hdata; subst neighborhood;
    apply Forall_list_set; try exact Hall.
  - apply updateNeighborhoodStats_inv. cbn.
    apply (Forall_nth_default (fun nh => statsRewardInv (stats nh))); assumption.
  - cbn. apply (Forall_nth_default (fun nh => statsRewardInv (stats nh))); assumption.
  - cbn. apply (Forall_nth_default (fun nh => statsRewardInv (stats nh))); assumption.
  - cbn. apply (Forall_nth_default (fun nh => statsRewardInv (stats nh))); assumption.
Qed.


(** ** What one call leaves alone *)

Lemma epsGreedySelect_eps {U : Type} (epsnchoices : U -> Z) (epsreward : U -> Z -> Q)
    (userptr : U) (epsgreedy : EPSGREEDY RNG) :
  eps (snd (epsGreedySelect epsnchoices epsreward userptr epsgreedy)) = eps epsgreedy.
Proof.
  unfold epsGreedySelect. destruct (epsnchoices userptr =? 0); [reflexivity|].
  destruct (SCIPrandomGetReal _ _ _) as [u rng].
  destruct (Qle_bool u (eps epsgreedy)); [reflexivity|].
  destruct (SCIPrandomGetInt _ _ _) as [k rng']. reflexivity.
Qed.

Lemma nth_list_set_outside {A : Type} (l : list A) (i : nat) (v d : A) :
  (List.length l <= i)%nat -> nth i (list_set l i v) d = nth i l d.
Proof.
  intro H. rewrite !nth_overflow; [reflexivity | exact H | rewrite list_set_length; exact H].
Qed.

(** X3.  One call of [heurExecLns] changes neither the parameters of the
    heuristic, nor the number of registered neighborhoods, nor the size of
    their array, nor [eps], nor the EXP3 state, nor the call counter; it
    leaves every neighborhood other than the selected one as it was, and of
    the selected one it keeps the name, the fixing rate and the callback. *)
Theorem heurExecLns_registry_frame (scip : SCIP) (heur : SCIP_HEUR RNG) :
  let heur' := snd (fst (snd (heurExecLns scip heur))) in
  let hd := SCIPheurGetData heur in
  let hd' := SCIPheurGetData heur' in
  let idx := Z.to_nat (selectedIndex heur) in
  SCIPheurGetNCalls heur' = SCIPheurGetNCalls heur /\
  nneighborhoods hd' = nneighborhoods hd /\
  List.length (neighborhoods hd') = List.length (neighborhoods hd) /\
  (nodesoffset hd', maxnodes hd', minnodes hd', nodesquot hd', minimprove hd',
   lplimfac hd', nsolslim hd')
    = (nodesoffset hd, maxnodes hd, minnodes hd, nodesquot hd, minimprove hd,
       lplimfac hd, nsolslim hd) /\
  eps (epsgreedynh hd') = eps (epsgreedynh hd) /\
  exp3 hd' = exp3 hd /\
  (forall k : nat, k <> idx ->
     nth k (neighborhoods hd') NH_null = nth k (neighborhoods hd) NH_null) /\
  name (nth idx (neighborhoods hd') NH_null) = name (nth idx (neighborhoods hd) NH_null) /\
  fixingrate (nth idx (neighborhoods hd') NH_null)
    = fixingrate (nth idx (neighborhoods hd) NH_null) /\
  varfixings (nth idx (neighborhoods hd') NH_null)
    = varfixings (nth idx (neighborhoods hd) NH_null).
Proof.
  cbv zeta. unfold selectedIndex.
  pose proof (epsGreedySelect_eps epsNChoicesLns epsRewardLns (SCIPheurGetData heur)
                (epsgreedynh (SCIPheurGetData heur))) as Heps.
  heurExecLns_paths scip heur;
    cbn [SCIPheurGetData SCIPheurGetNCalls neighborhoods nneighborhoods
         HEURDATA_set_neighborhood HEURDATA_add_usednodes HEURDATA_set_epsgreedynh
         nodesoffset maxnodes minnodes nodesquot minimprove lplimfac nsolslim
         epsgreedynh exp3 fst snd] in *;
    try (repeat split; auto; fail);
    destruct (neighborhoodFixVariables_neighborhood scip
                (nth (Z.to_nat idx) (neighborhoods (SCIPheurGetData heur)) NH_null)
                (mkFIXINGS (repeat NULLVAR (List.length (prob_vars scip)))
                           (repeat 0%Q (List.length (prob_vars scip))) 0 false))
      as [data Hdata];
    rewrite Efix in Hdata; cbn [fst snd] in Hdata; subst neighborhood;
    (split; [reflexivity|]); (split; [reflexivity|]);
    (split; [apply list_set_length|]); (split; [reflexivity|]);
    (split; [exact Heps|]); (split; [reflexivity|]);
    (split; [intros k Hk; apply nth_list_set_other; exact Hk|]);
    destruct (Nat.lt_ge_cases (Z.to_nat idx)
                (List.length (neighborhoods (SCIPheurGetData heur)))) as [Hin|Hout];
    try (rewrite (nth_list_set_same _ _ _ _ Hin); cbn; auto);
    try (rewrite (nth_list_set_outside _ _ _ _ Hout); auto).
Qed.



(** ** The mutation neighborhood never launches *)

Lemma mutationLoop_flags (scip : SCIP) (incumbentsol : SCIP_SOL) (nbinintvars : Z) (n : nat) :
  forall (i : Z) (rng : RNG) (vars : list SCIP_VAR) (bufs : FIXINGS),
    success (snd (mutationLoop scip incumbentsol nbinintvars n i rng vars bufs)) = success bufs /\
    nfixings (snd (mutationLoop scip incumbentsol nbinintvars n i rng vars bufs)) = nfixings bufs.
Proof.
  induction n as [|n IH]; intros i rng vars bufs; [split; reflexivity|].
  cbn [mutationLoop]. destruct (SCIPrandomGetInt rng i (nbinintvars - 1)) as [rand rng'].
  match goal with |- context [mutationLoop _ _ _ n ?i' ?r ?v ?b] => destruct (IH i' r v b) as [H1 H2] end.
  rewrite H1, H2. split; reflexivity.
Qed.

Lemma varFixingsMutation_success
    (scip : SCIP) (fr : NH_FIXINGRATE) (data : option (DATA_MUTATION RNG)) (bufs : FIXINGS) :
  success (snd (snd (varFixingsMutation scip fr data bufs))) = success bufs.
Proof.
  unfold varFixingsMutation. destruct data as [mutation|]; [|reflexivity].
  destruct (prob_nbinvars scip + prob_nintvars scip =? 0); [reflexivity|].
  destruct (SCIPgetBestSol scip) as [inc|]; [|reflexivity].
  destruct (_ <=? _); [reflexivity|].
  destruct (mutationLoop _ _ _ _ _ _ _ _) as [[rng vars] b] eqn:E. cbn.
  pose proof (mutationLoop_flags scip inc (prob_nbinvars scip + prob_nintvars scip)
                (Z.to_nat (real_to_longint
                   (targetfixingrate fr * inject_Z (SCIPgetNVars scip)) + 1))
                0 (mutation_rng mutation) (prob_vars scip) bufs) as [H _].
  rewrite E in H. exact H.
Qed.

(** X5.  No path of [varFixingsMutation] assigns the success flag, so the fixing
    step of a neighborhood with this callback always returns [FALSE]; when
    such a neighborhood is selected, [heurExecLns] launches no sub-solve:
    its result is [SCIP_DELAYED] or [SCIP_DIDNOTRUN]. *)
Theorem varFixingsMutation_never_launches (scip : SCIP) (heur : SCIP_HEUR RNG) :
  varfixings (nth (Z.to_nat (selectedIndex heur)) (neighborhoods (SCIPheurGetData heur))
                  NH_null) = Some varFixingsMutation ->
  success (snd (snd (selectedFixings scip heur))) = false /\
  (snd (snd (heurExecLns scip heur)) = SCIP_DELAYED \/
   snd (snd (heurExecLns scip heur)) = SCIP_DIDNOTRUN).
Proof.
  intro Hcb.
  assert (Hfalse : success (snd (snd (selectedFixings scip heur))) = false).
  { unfold selectedFixings, neighborhoodFixVariables. rewrite Hcb.
    match goal with
    | |- context [varFixingsMutation ?s ?f ?d ?b] =>
        pose proof (varFixingsMutation_success s f d b) as Hs;
        destruct (varFixingsMutation s f d b) as [rc [[scip' data'] b']]
    end.
    cbn in Hs. destruct rc; cbn [snd]; [|exact Hs].
    rewrite Hs. cbn. exact Hs. }
  split; [exact Hfalse|].
  revert Hfalse. unfold selectedFixings, selectedIndex.
  heurExecLns_paths scip heur; intro Hfalse; auto;
    cbn in Hfalse; congruence.
Qed.

(** ** What RENS and RINS fix *)

Lemma firstn_S_skipn {A : Type} (l : list A) (n i : nat) (d : A) :
  (i < List.length l)%nat ->
  firstn (S n) (skipn i l) = nth i l d :: firstn n (skipn (S i) l).
Proof.
  revert i. induction l as [|h t IH]; intros [|i] H; simpl in *; try lia; auto.
  rewrite <- IH by lia. reflexivity.
Qed.

Lemma firstn_list_set_snoc {A : Type} (l : list A) (k : nat) (v : A) :
  (k < List.length l)%nat -> firstn (S k) (list_set l k v) = firstn k l ++ [v].
Proof.
  revert k. induction l as [|h t IH]; intros [|k] H; simpl in *; try lia; auto.
  f_equal. apply IH. lia.
Qed.

(** The loop of RENS appends, in the order of the variable array, the
    variables of the range whose LP value is integral, with that value. *)
Lemma rensLoop_spec (scip : SCIP) (vars : list SCIP_VAR) (n : nat) :
  forall (i : nat) (bufs : FIXINGS),
    (i + n <= List.length vars)%nat ->
    0 <= nfixings bufs ->
    (Z.to_nat (nfixings bufs) + n <= List.length (varbuf bufs))%nat ->
    (Z.to_nat (nfixings bufs) + n <= List.length (valbuf bufs))%nat ->
    let sel := filter (fun v => SCIPisIntegral scip (lpsolval scip v))
                      (firstn n (skipn i vars)) in
    let out := rensLoop scip vars n i bufs in
    nfixings out = nfixings bufs + Z.of_nat (List.length sel) /\
    firstn (Z.to_nat (nfixings out)) (varbuf out)
      = firstn (Z.to_nat (nfixings bufs)) (varbuf bufs) ++ sel /\
    firstn (Z.to_nat (nfixings out)) (valbuf out)
      = firstn (Z.to_nat (nfixings bufs)) (valbuf bufs) ++ map (lpsolval scip) sel /\
    success out = success bufs.
Proof.
  induction n as [|n IH]; intros i bufs Hi Hnf Hvar Hval; cbv zeta.
  - cbn. rewrite !app_nil_r. repeat split; lia.
  - cbn [rensLoop]. rewrite (firstn_S_skipn vars n i NULLVAR) by lia.
    cbn [filter SCIPgetSolVal].
    destruct (SCIPisIntegral scip (lpsolval scip (nth i vars NULLVAR))) eqn:E.
    + specialize (IH (S i) (appendFixing bufs (nth i vars NULLVAR)
                                          (lpsolval scip (nth i vars NULLVAR)))).
      cbv zeta in IH. cbn [appendFixing nfixings varbuf valbuf success] in IH.
      rewrite !list_set_length in IH.
      replace (Z.to_nat (nfixings bufs + 1)) with (S (Z.to_nat (nfixings bufs))) in IH by lia.
      destruct IH as (H1 & H2 & H3 & H4); try lia.
      rewrite firstn_list_set_snoc in H2 by lia.
      rewrite firstn_list_set_snoc in H3 by lia.
      rewrite <- !app_assoc in H2, H3. cbn [app] in H2, H3.
      cbn [List.length map]. repeat split; auto. lia.
    + specialize (IH (S i) bufs). cbv zeta in IH.
      destruct IH as (H1 & H2 & H3 & H4); try lia.
      repeat split; auto.
Qed.

(** X6.  With a solved LP and discrete variables, [varFixingsRens], called with
    an empty fixing set as [neighborhoodFixVariables] calls it, succeeds and
    fixes exactly the binary and integer variables whose LP value is
    integral, in the order of the variable array, each to its LP value. *)
Theorem varFixingsRens_fixes_integral
    (scip : SCIP) (fr : NH_FIXINGRATE) (data : option (DATA_MUTATION RNG)) (bufs : FIXINGS) :
  hasCurrentNodeLP scip = true ->
  lpsolstat_optimal scip = true ->
  prob_nbinvars scip + prob_nintvars scip <> 0 ->
  prob_nbinvars scip + prob_nintvars scip <= Z.of_nat (List.length (prob_vars scip)) ->
  nfixings bufs = 0 ->
  List.length (varbuf bufs) = List.length (prob_vars scip) ->
  List.length (valbuf bufs) = List.length (prob_vars scip) ->
  let out := snd (snd (varFixingsRens scip fr data bufs)) in
  let sel := filter (fun v => SCIPisIntegral scip (lpsolval scip v))
                    (firstn (Z.to_nat (prob_nbinvars scip + prob_nintvars scip))
                            (prob_vars scip)) in
  success out = true /\
  nfixings out = Z.of_nat (List.length sel) /\
  firstn (List.length sel) (varbuf out) = sel /\
  firstn (List.length sel) (valbuf out) = map (lpsolval scip) sel.
Proof.
  intros Hlp Hopt Hne Hle Hnf Hvar Hval. cbv zeta.
  unfold varFixingsRens. rewrite Hlp, Hopt. cbn [negb].
  apply Z.eqb_neq in Hne. rewrite Hne. cbn [snd FIXINGS_set_success success nfixings varbuf valbuf].
  pose proof (rensLoop_spec scip (prob_vars scip)
                (Z.to_nat (prob_nbinvars scip + prob_nintvars scip)) O bufs) as H.
  cbv zeta in H. rewrite Hnf in H. cbn [skipn Z.to_nat firstn app] in H.
  destruct H as (H1 & H2 & H3 & H4); try lia.
  rewrite H1 in H2, H3. rewrite Z.add_0_l, Nat2Z.id in H2, H3.
  repeat split; auto.
Qed.


(** The loop of RINS appends the variables of the range whose LP value
    equals the incumbent value, with the incumbent value. *)
Lemma rinsLoop_spec (scip : SCIP) (incumbent : SCIP_SOL) (vars : list SCIP_VAR) (n : nat) :
  forall (i : nat) (bufs : FIXINGS),
    (i + n <= List.length vars)%nat ->
    0 <= nfixings bufs ->
    (Z.to_nat (nfixings bufs) + n <= List.length (varbuf bufs))%nat ->
    (Z.to_nat (nfixings bufs) + n <= List.length (valbuf bufs))%nat ->
    let sel := filter (fun v => SCIPisEQ scip (lpsolval scip v) (sol_val incumbent v))
                      (firstn n (skipn i vars)) in
    let out := rinsLoop scip incumbent vars n i bufs in
    nfixings out = nfixings bufs + Z.of_nat (List.length sel) /\
    firstn (Z.to_nat (nfixings out)) (varbuf out)
      = firstn (Z.to_nat (nfixings bufs)) (varbuf bufs) ++ sel /\
    firstn (Z.to_nat (nfixings out)) (valbuf out)
      = firstn (Z.to_nat (nfixings bufs)) (valbuf bufs) ++ map (sol_val incumbent) sel /\
    success out = success bufs.
Proof.
  induction n as [|n IH]; intros i bufs Hi Hnf Hvar Hval; cbv zeta.
  - cbn. rewrite !app_nil_r. repeat split; lia.
  - cbn [rinsLoop]. rewrite (firstn_S_skipn vars n i NULLVAR) by lia.
    cbn [filter SCIPgetSolVal].
    destruct (SCIPisEQ scip (lpsolval scip (nth i vars NULLVAR))
                (sol_val incumbent (nth i vars NULLVAR))) eqn:E.
    + specialize (IH (S i) (appendFixing bufs (nth i vars NULLVAR)
                                          (sol_val incumbent (nth i vars NULLVAR)))).
      cbv zeta in IH. cbn [appendFixing nfixings varbuf valbuf success] in IH.
      rewrite !list_set_length in IH.
      replace (Z.to_nat (nfixings bufs + 1)) with (S (Z.to_nat (nfixings bufs))) in IH by lia.
      destruct IH as (H1 & H2 & H3 & H4); try lia.
      rewrite firstn_list_set_snoc in H2 by lia.
      rewrite firstn_list_set_snoc in H3 by lia.
      rewrite <- !app_assoc in H2, H3. cbn [app] in H2, H3.
      cbn [List.length map]. repeat split; auto. lia.
    + specialize (IH (S i) bufs). cbv zeta in IH.
      destruct IH as (H1 & H2 & H3 & H4); try lia.
      repeat split; auto.
Qed.

(** X7.  With a solved LP, an incumbent of the transformed problem and discrete
    variables, [varFixingsRins], called with an empty fixing set, succeeds
    and fixes exactly the binary and integer variables whose LP value equals
    the incumbent value up to the tolerance, in the order of the variable
    array, each to its incumbent value. *)
Theorem varFixingsRins_fixes_agreeing
    (scip : SCIP) (fr : NH_FIXINGRATE) (data : option (DATA_MUTATION RNG)) (bufs : FIXINGS)
    (incumbent : SCIP_SOL) :
  hasCurrentNodeLP scip = true ->
  lpsolstat_optimal scip = true ->
  SCIPgetBestSol scip = Some incumbent ->
  sol_origin_original incumbent = false ->
  prob_nbinvars scip + prob_nintvars scip <> 0 ->
  prob_nbinvars scip + prob_nintvars scip <= Z.of_nat (List.length (prob_vars scip)) ->
  nfixings bufs = 0 ->
  List.length (varbuf bufs) = List.length (prob_vars scip) ->
  List.length (valbuf bufs) = List.length (prob_vars scip) ->
  let out := snd (snd (varFixingsRins scip fr data bufs)) in
  let sel := filter (fun v => SCIPisEQ scip (lpsolval scip v) (sol_val incumbent v))
                    (firstn (Z.to_nat (prob_nbinvars scip + prob_nintvars scip))
                            (prob_vars scip)) in
  success out = true /\
  nfixings out = Z.of_nat (List.length sel) /\
  firstn (List.length sel) (varbuf out) = sel /\
  firstn (List.length sel) (valbuf out) = map (sol_val incumbent) sel.
Proof.
  intros Hlp Hopt Hinc Horig Hne Hle Hnf Hvar Hval. cbv zeta.
  unfold varFixingsRins. rewrite Hlp, Hopt, Hinc, Horig. cbn [negb].
  apply Z.eqb_neq in Hne. rewrite Hne. cbn [snd FIXINGS_set_success success nfixings varbuf valbuf].
  pose proof (rinsLoop_spec scip incumbent (prob_vars scip)
                (Z.to_nat (prob_nbinvars scip + prob_nintvars scip)) O bufs) as H.
  cbv zeta in H. rewrite Hnf in H. cbn [skipn Z.to_nat firstn app] in H.
  destruct H as (H1 & H2 & H3 & H4); try lia.
  rewrite H1 in H2, H3. rewrite Z.add_0_l, Nat2Z.id in H2, H3.
  repeat split; auto.
Qed.

(** X8.  RENS declines without writing anything when there is no LP at the node,
    or the LP is not solved to optimality, or there is no discrete variable;
    RINS declines in these cases and also without an incumbent or with an
    incumbent of the original problem.  Declining leaves the outer instance,
    the buffers, the count and the flag as they were passed in. *)
Theorem varFixings_decline
    (scip : SCIP) (fr : NH_FIXINGRATE) (data : option (DATA_MUTATION RNG)) (bufs : FIXINGS) :
  (hasCurrentNodeLP scip = false \/ lpsolstat_optimal scip = false \/
   prob_nbinvars scip + prob_nintvars scip = 0 ->
   varFixingsRens scip fr data bufs = (SCIP_OKAY, (scip, data, bufs))) /\
  (hasCurrentNodeLP scip = false \/ lpsolstat_optimal scip = false \/
   prob_nbinvars scip + prob_nintvars scip = 0 \/ SCIPgetBestSol scip = None \/
   (exists incumbent, SCIPgetBestSol scip = Some incumbent /\
                      sol_origin_original incumbent = true) ->
   varFixingsRins scip fr data bufs = (SCIP_OKAY, (scip, data, bufs))).
Proof.
  split.
  - unfold varFixingsRens. intros [H | [H | H]].
    + rewrite H. reflexivity.
    + rewrite H. destruct (hasCurrentNodeLP scip); reflexivity.
    + apply Z.eqb_eq in H. rewrite H.
      destruct (hasCurrentNodeLP scip), (lpsolstat_optimal scip); reflexivity.
  - unfold varFixingsRins. intros [H | [H | [H | [H | (inc & H & Ho)]]]].
    + rewrite H. reflexivity.
    + rewrite H. destruct (hasCurrentNodeLP scip); reflexivity.
    + apply Z.eqb_eq in H. rewrite H.
      destruct (hasCurrentNodeLP scip), (lpsolstat_optimal scip); cbn; try reflexivity.
      destruct (SCIPgetBestSol scip) as [inc|]; [|reflexivity].
      destruct (sol_origin_original inc); reflexivity.
    + rewrite H. destruct (hasCurrentNodeLP scip), (lpsolstat_optimal scip); reflexivity.
    + rewrite H, Ho. destruct (hasCurrentNodeLP scip), (lpsolstat_optimal scip); reflexivity.
Qed.

(** ** The partial shuffle of the mutation neighborhood *)

Lemma count_occ_list_set (l : list SCIP_VAR) (i : nat) (v x : SCIP_VAR) :
  (i < List.length l)%nat ->
  (count_occ Nat.eq_dec (list_set l i v) x
   + (if Nat.eq_dec (nth i l NULLVAR) x then 1 else 0)
   = count_occ Nat.eq_dec l x + (if Nat.eq_dec v x then 1 else 0))%nat.
Proof.
  revert i. induction l as [|h t IH]; intros [|i] H; simpl in *; try lia.
  - destruct (Nat.eq_dec h x), (Nat.eq_dec v x); lia.
  - specialize (IH i ltac:(lia)). destruct (Nat.eq_dec h x); lia.
Qed.

Lemma nth_list_set (l : list SCIP_VAR) (i k : nat) (v : SCIP_VAR) :
  (i < List.length l)%nat ->
  nth k (list_set l i v) NULLVAR = if Nat.eq_dec k i then v else nth k l NULLVAR.
Proof.
  intro H. destruct (Nat.eq_dec k i) as [->|Hne].
  - apply nth_list_set_same. exact H.
  - apply nth_list_set_other. exact Hne.
Qed.

(** A swap of two positions of an array permutes it. *)
Lemma SCIPswapPointers_Permutation (vars : list SCIP_VAR) (i j : nat) :
  (i < List.length vars)%nat -> (j < List.length vars)%nat ->
  Permutation (SCIPswapPointers vars i j) vars.
Proof.
  intros Hi Hj. apply (Permutation_count_occ Nat.eq_dec). intro x.
  unfold SCIPswapPointers.
  pose proof (count_occ_list_set vars i (nth j vars NULLVAR) x Hi) as H1.
  pose proof (count_occ_list_set (list_set vars i (nth j vars NULLVAR)) j
                (nth i vars NULLVAR) x) as H2.
  rewrite list_set_length in H2. specialize (H2 Hj).
  rewrite (nth_list_set vars i j _ Hi) in H2.
  repeat match goal with
         | H : context [Nat.eq_dec ?a ?b] |- _ => destruct (Nat.eq_dec a b)
         end; subst; lia.
Qed.

Lemma SCIPswapPointers_length (vars : list SCIP_VAR) (i j : nat) :
  List.length (SCIPswapPointers vars i j) = List.length vars.
Proof. unfold SCIPswapPointers. rewrite !list_set_length. reflexivity. Qed.

Lemma SCIPswapPointers_other (vars : list SCIP_VAR) (i j k : nat) :
  k <> i -> k <> j -> nth k (SCIPswapPointers vars i j) NULLVAR = nth k vars NULLVAR.
Proof.
  intros Hi Hj. unfold SCIPswapPointers. rewrite !nth_list_set_other by assumption.
  reflexivity.
Qed.


(** The shuffle loop permutes the array, inside the positions from the loop
    index up to the number of discrete variables. *)
Lemma mutationLoop_vars (scip : SCIP) (incumbentsol : SCIP_SOL) (nbinintvars : Z) (n : nat) :
  RandomGetInt_in_range ->
  forall (i : Z) (rng : RNG) (vars : list SCIP_VAR) (bufs : FIXINGS),
    0 <= i -> i + Z.of_nat n <= nbinintvars ->
    nbinintvars <= Z.of_nat (List.length vars) ->
    let vars' := snd (fst (mutationLoop scip incumbentsol nbinintvars n i rng vars bufs)) in
    Permutation vars' vars /\
    List.length vars' = List.length vars /\
    (forall k : nat, (k < Z.to_nat i \/ Z.to_nat nbinintvars <= k)%nat ->
       nth k vars' NULLVAR = nth k vars NULLVAR).
Proof.
  intro Hrng. induction n as [|n IH]; intros i rng vars bufs Hi Hn Hlen; cbv zeta.
  - cbn. repeat split; auto.
  - cbn [mutationLoop].
    pose proof (Hrng rng i (nbinintvars - 1) ltac:(lia)) as Hrand.
    destruct (SCIPrandomGetInt rng i (nbinintvars - 1)) as [rand rng1]. cbn [fst] in Hrand.
    set (vars1 := if rand >? i then SCIPswapPointers vars (Z.to_nat i) (Z.to_nat rand)
                  else vars).
    assert (H1 : Permutation vars1 vars /\ List.length vars1 = List.length vars /\
                 forall k : nat, (k < Z.to_nat i \/ Z.to_nat nbinintvars <= k)%nat ->
                   nth k vars1 NULLVAR = nth k vars NULLVAR).
    { subst vars1. destruct (rand >? i); [|repeat split; auto].
      split; [apply SCIPswapPointers_Permutation; lia|].
      split; [apply SCIPswapPointers_length|].
      intros k Hk. apply SCIPswapPointers_other; lia. }
    destruct H1 as (Hp1 & Hl1 & Hn1).
    match goal with
    | |- context [mutationLoop _ _ _ n ?i' ?r ?v ?b] =>
        specialize (IH i' r v b ltac:(lia) ltac:(lia) ltac:(lia))
    end.
    cbv zeta in IH. destruct IH as (Hp & Hl & Hk).
    split; [eapply Permutation_trans; eassumption|].
    split; [congruence|].
    intros k Hkk. rewrite Hk by lia. apply Hn1. exact Hkk.
Qed.

(** The shuffle loop writes, at every position it visits, the variable that
    ends up at this position of the array and its incumbent value. *)
Lemma mutationLoop_bufs (scip : SCIP) (incumbentsol : SCIP_SOL) (nbinintvars : Z) (n : nat) :
  RandomGetInt_in_range ->
  forall (i : Z) (rng : RNG) (vars : list SCIP_VAR) (bufs : FIXINGS),
    0 <= i -> i + Z.of_nat n <= nbinintvars ->
    nbinintvars <= Z.of_nat (List.length vars) ->
    (Z.to_nat i + n <= List.length (varbuf bufs))%nat ->
    (Z.to_nat i + n <= List.length (valbuf bufs))%nat ->
    let out := mutationLoop scip incumbentsol nbinintvars n i rng vars bufs in
    (forall k : nat, (Z.to_nat i <= k < Z.to_nat i + n)%nat ->
       nth k (varbuf (snd out)) NULLVAR = nth k (snd (fst out)) NULLVAR /\
       nth k (valbuf (snd out)) 0%Q = sol_val incumbentsol (nth k (snd (fst out)) NULLVAR)) /\
    (forall k : nat, (k < Z.to_nat i)%nat ->
       nth k (varbuf (snd out)) NULLVAR = nth k (varbuf bufs) NULLVAR /\
       nth k (valbuf (snd out)) 0%Q = nth k (valbuf bufs) 0%Q) /\
    List.length (varbuf (snd out)) = List.length (varbuf bufs) /\
    List.length (valbuf (snd out)) = List.length (valbuf bufs).
Proof.
  intro Hrng. induction n as [|n IH]; intros i rng vars bufs Hi Hn Hlen Hvb Hlb; cbv zeta.
  - cbn. repeat split; auto; lia.
  - cbn [mutationLoop].
    pose proof (Hrng rng i (nbinintvars - 1) ltac:(lia)) as Hrand.
    destruct (SCIPrandomGetInt rng i (nbinintvars - 1)) as [rand rng1] eqn:Er.
    cbn [fst] in Hrand.
    set (vars1 := if rand >? i then SCIPswapPointers vars (Z.to_nat i) (Z.to_nat rand)
                  else vars).
    assert (Hl1 : List.length vars1 = List.length vars).
    { subst vars1. destruct (rand >? i); [apply SCIPswapPointers_length | reflexivity]. }
    match goal with
    | |- context [mutationLoop _ _ _ n ?i' ?r ?v ?b] =>
        pose proof (mutationLoop_vars scip incumbentsol nbinintvars n Hrng i' r v b
                      ltac:(lia) ltac:(lia) ltac:(lia)) as Hvars;
        specialize (IH i' r v b ltac:(lia) ltac:(lia) ltac:(lia));
        set (out := mutationLoop scip incumbentsol nbinintvars n i' r v b) in *
    end.
    cbv zeta in Hvars, IH. cbn [varbuf valbuf] in IH. rewrite !list_set_length in IH.
    replace (Z.to_nat (i + 1)) with (S (Z.to_nat i)) in * by lia.
    destruct Hvars as (_ & _ & Hsame).
    destruct IH as (Hin & Hbefore & Hlv & Hlq); try lia.
    split; [|split; [|split; assumption]].
    + intros k Hk. destruct (Nat.eq_dec k (Z.to_nat i)) as [->|Hne].
      * destruct (Hbefore (Z.to_nat i) ltac:(lia)) as [Hb1 Hb2].
        rewrite Hb1, Hb2, (Hsame (Z.to_nat i)) by lia.
        rewrite !nth_list_set_same by lia. split; reflexivity.
      * apply Hin. lia.
    + intros k Hk. destruct (Hbefore k ltac:(lia)) as [Hb1 Hb2].
      rewrite Hb1, Hb2. rewrite !nth_list_set_other by lia. split; reflexivity.
Qed.

Lemma SCIP_set_prob_vars_same (scip : SCIP) : SCIP_set_prob_vars scip (prob_vars scip) = scip.
Proof. destruct scip. reflexivity. Qed.

(** X9.  With a generator whose integer draws respect their range and a number of
    discrete variables between zero and the size of the array,
    [varFixingsMutation]
    returns the outer instance with its variable array permuted and nothing
    else changed, and the entries behind the discrete variables stay in
    place. *)
Theorem varFixingsMutation_permutes
    (scip : SCIP) (fr : NH_FIXINGRATE) (data : option (DATA_MUTATION RNG)) (bufs : FIXINGS) :
  RandomGetInt_in_range ->
  0 <= prob_nbinvars scip + prob_nintvars scip <= Z.of_nat (List.length (prob_vars scip)) ->
  let scip' := fst (fst (snd (varFixingsMutation scip fr data bufs))) in
  scip' = SCIP_set_prob_vars scip (prob_vars scip') /\
  Permutation (prob_vars scip') (prob_vars scip) /\
  (forall k : nat, (Z.to_nat (prob_nbinvars scip + prob_nintvars scip) <= k)%nat ->
     nth k (prob_vars scip') NULLVAR = nth k (prob_vars scip) NULLVAR).
Proof.
  intros Hrng Hlen. cbv zeta. unfold varFixingsMutation.
  assert (Hid : scip = SCIP_set_prob_vars scip (prob_vars scip) /\
                Permutation (prob_vars scip) (prob_vars scip) /\
                (forall k : nat,
                   (Z.to_nat (prob_nbinvars scip + prob_nintvars scip) <= k)%nat ->
                   nth k (prob_vars scip) NULLVAR = nth k (prob_vars scip) NULLVAR)).
  { split; [symmetry; apply SCIP_set_prob_vars_same | split; auto]. }
  destruct data as [mutation|]; [|exact Hid].
  destruct (prob_nbinvars scip + prob_nintvars scip =? 0); [exact Hid|].
  destruct (SCIPgetBestSol scip) as [inc|]; [|exact Hid].
  destruct (_ <=? _) eqn:Eguard; [exact Hid|].
  apply Z.leb_gt in Eguard.
  match goal with
  | |- context [mutationLoop ?s ?c ?nb ?n ?i ?r ?v ?b] =>
      pose proof (mutationLoop_vars s c nb n Hrng i r v b ltac:(lia) ltac:(lia) ltac:(lia)) as H;
      destruct (mutationLoop s c nb n i r v b) as [[rng' vars'] bufs']
  end.
  cbv zeta in H. cbn [fst snd] in *. destruct H as (Hp & Hl & Hk).
  cbn [SCIP_set_prob_vars prob_vars]. split; [reflexivity|].
  split; [exact Hp|]. intros k Hkk. apply Hk. right. exact Hkk.
Qed.


Lemma firstn_ext_nth {A : Type} (d : A) (n : nat) :
  forall l1 l2 : list A,
    (n <= List.length l1)%nat -> (n <= List.length l2)%nat ->
    (forall k : nat, (k < n)%nat -> nth k l1 d = nth k l2 d) ->
    firstn n l1 = firstn n l2.
Proof.
  induction n as [|n IH]; intros l1 l2 H1 H2 Hnth; [reflexivity|].
  destruct l1 as [|a l1], l2 as [|b l2]; simpl in *; try lia.
  f_equal.
  - apply (Hnth O). lia.
  - apply IH; try lia. intros k Hk. apply (Hnth (S k)). lia.
Qed.

Lemma NoDup_firstn_prefix {A : Type} (n : nat) (l : list A) : NoDup l -> NoDup (firstn n l).
Proof.
  intro H. rewrite <- (firstn_skipn n l) in H. apply NoDup_app_remove_r in H. exact H.
Qed.

Lemma In_firstn_le {A : Type} (a b : nat) (l : list A) (x : A) :
  (a <= b)%nat -> In x (firstn a l) -> In x (firstn b l).
Proof.
  intros Hab Hin. replace a with (Nat.min a b) in Hin by lia.
  rewrite <- firstn_firstn in Hin.
  rewrite <- (firstn_skipn a (firstn b l)). apply in_or_app. left. exact Hin.
Qed.

Lemma real_to_longint_nonneg (x : Q) : (0 <= x)%Q -> 0 <= real_to_longint x.
Proof.
  intro H. rewrite real_to_longint_floor by exact H.
  change 0 with (Qfloor 0). apply Qfloor_resp_le. exact H.
Qed.

(** X10.  The partial shuffle selects distinct discrete variables.  With a
    generator whose integer draws respect their range, an incumbent, a
    target rate that is not negative, more discrete variables than the
    target number [(int)(targetfixingrate * nvars) + 1] of fixings, and a
    variable array without repetition, [varFixingsMutation] returns
    [SCIP_OKAY] with exactly the target number of fixings; the fixed
    variables are the first entries of the shuffled array, they are pairwise
    distinct, each of them is a discrete variable of the outer problem, and
    each is fixed to its incumbent value. *)
Theorem varFixingsMutation_fixes_distinct
    (scip : SCIP) (fr : NH_FIXINGRATE) (mutation : DATA_MUTATION RNG) (bufs : FIXINGS)
    (incumbentsol : SCIP_SOL) :
  RandomGetInt_in_range ->
  SCIPgetBestSol scip = Some incumbentsol ->
  (0 <= targetfixingrate fr)%Q ->
  real_to_longint (targetfixingrate fr * inject_Z (SCIPgetNVars scip)) + 1
    < prob_nbinvars scip + prob_nintvars scip ->
  prob_nbinvars scip + prob_nintvars scip <= Z.of_nat (List.length (prob_vars scip)) ->
  NoDup (prob_vars scip) ->
  List.length (varbuf bufs) = List.length (prob_vars scip) ->
  List.length (valbuf bufs) = List.length (prob_vars scip) ->
  let ntarget :=
    Z.to_nat (real_to_longint (targetfixingrate fr * inject_Z (SCIPgetNVars scip)) + 1) in
  let out := varFixingsMutation scip fr (Some mutation) bufs in
  let bufs' := snd (snd out) in
  let vars' := prob_vars (fst (fst (snd out))) in
  fst out = SCIP_OKAY /\
  nfixings bufs' = Z.of_nat ntarget /\
  firstn ntarget (varbuf bufs') = firstn ntarget vars' /\
  NoDup (firstn ntarget (varbuf bufs')) /\
  (forall v : SCIP_VAR, In v (firstn ntarget (varbuf bufs')) ->
     In v (firstn (Z.to_nat (prob_nbinvars scip + prob_nintvars scip)) (prob_vars scip))) /\
  (forall k : nat, (k < ntarget)%nat ->
     nth k (valbuf bufs') 0%Q = sol_val incumbentsol (nth k (varbuf bufs') NULLVAR)).
Proof.
  intros Hrng Hinc Hrate Hguard Hlen Hnodup Hvb Hlb. cbv zeta.
  assert (Hnn : 0 <= real_to_longint (targetfixingrate fr * inject_Z (SCIPgetNVars scip))).
  { apply real_to_longint_nonneg. apply Qmult_le_0_compat; [exact Hrate|].
    change 0%Q with (inject_Z 0). rewrite <- Zle_Qle. unfold SCIPgetNVars. lia. }
  set (nt := real_to_longint (targetfixingrate fr * inject_Z (SCIPgetNVars scip)) + 1) in *.
  set (nb := prob_nbinvars scip + prob_nintvars scip) in *.
  unfold varFixingsMutation. rewrite Hinc. fold nb. fold nt.
  assert (E0 : (nb =? 0) = false) by (apply Z.eqb_neq; lia).
  assert (E1 : (nb <=? nt) = false) by (apply Z.leb_gt; lia).
  rewrite E0, E1.
  pose proof (mutationLoop_vars scip incumbentsol nb (Z.to_nat nt) Hrng 0
                (mutation_rng mutation) (prob_vars scip) bufs
                ltac:(lia) ltac:(lia) ltac:(lia)) as Hvars.
  pose proof (mutationLoop_bufs scip incumbentsol nb (Z.to_nat nt) Hrng 0
                (mutation_rng mutation) (prob_vars scip) bufs
                ltac:(lia) ltac:(lia) ltac:(lia) ltac:(lia) ltac:(lia)) as Hbufs.
  destruct (mutationLoop scip incumbentsol nb (Z.to_nat nt) 0 (mutation_rng mutation)
              (prob_vars scip) bufs) as [[rng' vars'] bufs'].
  cbv zeta in Hvars, Hbufs. cbn [fst snd Z.to_nat Nat.add] in *.
  cbn [SCIP_set_prob_vars prob_vars nfixings varbuf valbuf].
  destruct Hvars as (Hperm & Hlv & Hsame).
  destruct Hbufs as (Hin & _ & Hlvb & Hlqb).
  assert (Hfirst : firstn (Z.to_nat nt) (varbuf bufs') = firstn (Z.to_nat nt) vars').
  { apply (firstn_ext_nth NULLVAR); try lia. intros k Hk. apply Hin. lia. }
  assert (Hnd' : NoDup vars').
  { apply (Permutation_NoDup (l := prob_vars scip));
      [apply Permutation_sym; exact Hperm | exact Hnodup]. }
  split; [reflexivity|]. split; [lia|]. split; [exact Hfirst|].
  split; [rewrite Hfirst; apply NoDup_firstn_prefix; exact Hnd'|].
  split.
  - intros v Hv. rewrite Hfirst in Hv.
    apply (In_firstn_le _ (Z.to_nat nb)) in Hv; [|lia].
    assert (Hskip : skipn (Z.to_nat nb) vars' = skipn (Z.to_nat nb) (prob_vars scip)).
    { apply (nth_ext _ _ NULLVAR NULLVAR).
      - rewrite !length_skipn. lia.
      - intros k _. rewrite !nth_skipn. apply Hsame. right. lia. }
    assert (Hpre : Permutation (firstn (Z.to_nat nb) vars')
                               (firstn (Z.to_nat nb) (prob_vars scip))).
    { apply (Permutation_app_inv_r (skipn (Z.to_nat nb) vars')).
      rewrite Hskip at 2. rewrite !firstn_skipn. exact Hperm. }
    apply (Permutation_in _ Hpre). exact Hv.
  - intros k Hk. destruct (Hin k ltac:(lia)) as [Ha Hb]. rewrite Hb, Ha. reflexivity.
Qed.


(** ** EXP3: reset and selection *)





(** The selection loop stops at the first index whose running sum reaches
    the draw, or behind the last probability when no running sum does. *)
Lemma expThreeSelectLoop_spec (rand : Q) (probs : list Q) :
  forall (psum : Q) (i : Z),
    let a := expThreeSelectLoop probs rand psum i in
    i <= a <= i + Z.of_nat (List.length probs) /\
    (forall j : nat, Z.of_nat j < a - i ->
       (fold_left double_plus (firstn (S j) probs) psum < rand)%Q) /\
    (a < i + Z.of_nat (List.length probs) ->
       (rand <= fold_left double_plus (firstn (S (Z.to_nat (a - i))) probs) psum)%Q).
Proof.
  induction probs as [|p rest IH]; intros psum i; cbv zeta.
  - cbn. repeat split; try lia.
  - cbn [expThreeSelectLoop List.length].
    destruct (Qle_bool rand (double_plus psum p)) eqn:E.
    + repeat split; try lia.
      intros _. replace (i - i) with 0 by lia. cbn [Z.to_nat firstn fold_left].
      apply Qle_bool_iff. exact E.
    + apply Qle_bool_false_iff in E.
      specialize (IH (double_plus psum p) (i + 1)). cbv zeta in IH.
      destruct IH as (Hr & Hlt & Hle).
      set (a := expThreeSelectLoop rest rand (double_plus psum p) (i + 1)) in *.
      repeat split; try lia.
      * intros [|j] Hj; [cbn [firstn fold_left]; exact E|].
        cbn [firstn fold_left]. apply Hlt. lia.
      * intro Ha. replace (Z.to_nat (a - i)) with (S (Z.to_nat (a - (i + 1)))) by lia.
        cbn [firstn fold_left]. apply Hle. lia.
Qed.

(** X12.  [expThreeSelectAction] draws [u] from [[0, 1]] and returns the first
    action whose running sum of probabilities reaches [u]; when no running
    sum reaches [u] it returns [nactions], which is not an action.  It adds
    one to the number of draws and keeps the probabilities and the
    cumulative gains. *)
Theorem expThreeSelectAction_spec (exp3 : EXPTHREE RNG) (rng : RNG) :
  exp3_rng exp3 = Some rng ->
  Z.of_nat (List.length (probabilities exp3)) = nactions exp3 ->
  let u := fst (SCIPrandomGetReal rng 0%Q 1%Q) in
  exists (a : Z) (exp3' : EXPTHREE RNG),
    expThreeSelectAction exp3 = Some (a, exp3') /\
    0 <= a <= nactions exp3 /\
    (forall j : nat, Z.of_nat j < a -> (prefixSum (probabilities exp3) (S j) < u)%Q) /\
    (a < nactions exp3 -> (u <= prefixSum (probabilities exp3) (S (Z.to_nat a)))%Q) /\
    ndraws exp3' = ndraws exp3 + 1 /\
    probabilities exp3' = probabilities exp3 /\
    cumulativegain exp3' = cumulativegain exp3 /\
    nactions exp3' = nactions exp3 /\
    exp3_rng exp3' = Some (snd (SCIPrandomGetReal rng 0%Q 1%Q)).
Proof.
  intros Hrng Hlen. cbv zeta. unfold expThreeSelectAction. rewrite Hrng.
  destruct (SCIPrandomGetReal rng 0%Q 1%Q) as [u rng']. cbn [fst snd].
  rewrite firstn_all2 by lia.
  pose proof (expThreeSelectLoop_spec u (probabilities exp3) 0%Q 0) as H.
  cbv zeta in H. destruct H as (Hr & Hlt & Hle).
  eexists. eexists. split; [reflexivity|].
  cbn [ndraws probabilities cumulativegain nactions exp3_rng].
  unfold prefixSum. unfold SCIP_Real in *. repeat split; try lia.
  - intros j Hj. apply Hlt. lia.
  - intro Ha. rewrite Z.sub_0_r in Hle. apply Hle. lia.
Qed.

(** X14.  The gains never reach the selection: after any sequence of
    [expThreeUpdate] calls, [expThreeSelectAction] returns the action it
    returns without them. *)
Theorem expThreeSelectAction_ignores_gains
    (exp3 : EXPTHREE RNG) (updates : list (Q * Z)) :
  option_map fst
    (expThreeSelectAction
       (fold_left (fun e u => expThreeUpdate e (fst u) (snd u)) updates exp3))
    = option_map fst (expThreeSelectAction exp3).
Proof.
  revert exp3. induction updates as [|[gain i] rest IH]; intro exp3; [reflexivity|].
  cbn [fold_left fst snd]. rewrite IH.
  unfold expThreeSelectAction, expThreeUpdate. cbn [exp3_rng nactions probabilities].
  destruct (exp3_rng exp3) as [rng|]; [|reflexivity].
  destruct (SCIPrandomGetReal rng 0%Q 1%Q) as [u rng']. reflexivity.
Qed.


(** ** Budget: monotonicity and the flag *)


(** X16.  [determineLimits] can lower the flag and never raises it, and the
    limits it returns do not depend on the flag passed in. *)
Theorem determineLimits_flag (scip : SCIP) (heur : SCIP_HEUR RNG) (runagain : bool) :
  snd (determineLimits scip heur runagain)
    = runagain && snd (determineLimits scip heur true) /\
  fst (determineLimits scip heur runagain) = fst (determineLimits scip heur true).
Proof.
  unfold determineLimits. cbn [fst snd]. split; [|reflexivity].
  destruct (Qle_bool _ 0 || Qle_bool _ _), (_ <? _), runagain; reflexivity.
Qed.

(** ** The event handler over a run *)

(** X17.  Over the events of a run, the handler asks for an interruption exactly
    when some LP event arrives with an LP counter above
    [lplimfac * nodelimit]; and when the run has no best-solution event the
    outer instance is returned as it was. *)
Theorem handleEvents_interrupt (events : list SCIP_EVENT) (eventdata : SCIP_EVENTDATA) :
  forall (sourcescip : SCIP) (interrupted : bool),
    snd (handleEvents sourcescip events eventdata interrupted)
      = interrupted || existsb (lpLimitExceeded eventdata) events /\
    (existsb isBestSolEvent events = false ->
     fst (handleEvents sourcescip events eventdata interrupted) = sourcescip).
Proof.
  induction events as [|event rest IH]; intros sourcescip interrupted.
  - cbn. rewrite orb_false_r. split; reflexivity.
  - cbn [handleEvents existsb].
    destruct event as [vals|nlps|]; cbn [eventExecLns lpLimitExceeded isBestSolEvent].
    + rewrite orb_false_r.
      destruct (IH (transferSolution sourcescip vals) interrupted) as [H1 _].
      rewrite H1. cbn [orb]. split; [reflexivity | discriminate].
    + destruct (Qlt_bool _ _); rewrite ?orb_false_r, ?orb_true_r;
        match goal with
        | |- context [handleEvents ?s rest eventdata ?b] => destruct (IH s b) as [H1 H2]
        end;
        rewrite H1; cbn [orb]; (split; [reflexivity | exact H2]).
    + rewrite orb_false_r. destruct (IH sourcescip interrupted) as [H1 H2].
      rewrite H1. cbn [orb]. split; [reflexivity | exact H2].
Qed.

(** ** Reading the configuration back *)

(** X18.  After [setupSubScip] the node, time and memory limits read from the
    sub-SCIP are the planned limits, the limit on best solutions is
    [nsolslim], and the verbosity is 5, the later of the two values written.
    Recursive sub-SCIPs are switched off.  A parameter that the sub-SCIP has
    fixed and that [setupSubScip] writes under a guard keeps its value. *)
Theorem setupSubScip_readback
    (scip : SCIP) (subscip : SUBSCIP) (solvelimits : SOLVELIMITS) (heur : SCIP_HEUR RNG) :
  let sub' := setupSubScip scip subscip solvelimits heur in
  SCIPgetParam sub' "limits/nodes" = Some (ParamLongint (nodelimit solvelimits)) /\
  SCIPgetParam sub' "limits/time" = Some (ParamReal (timelimit solvelimits)) /\
  SCIPgetParam sub' "limits/memory" = Some (ParamReal (memorylimit solvelimits)) /\
  SCIPgetParam sub' "limits/bestsol" = Some (ParamInt (nsolslim (SCIPheurGetData heur))) /\
  SCIPgetParam sub' "display/verblevel" = Some (ParamInt 5) /\
  In SubscipsOff (sub_settings sub') /\
  (forall nm : string,
     In nm ["nodeselection/estimate/stdpriority"%string;
            "branching/inference/priority"%string;
            "conflict/enable"%string; "conflict/maxstoresize"%string;
            "constraints/quadratic/enfolplimit"%string] ->
     isParamFixed (sub_plugins subscip) nm = true ->
     SCIPgetParam sub' nm = SCIPgetParam subscip nm).
Proof.
  cbv zeta. unfold setupSubScip, setLimits, SCIPgetParam.
  cbn [sub_plugins SCIPsetParam SCIPapplySetting].
  split; [reflexivity|]. split; [reflexivity|]. split; [reflexivity|].
  split; [destruct (objectiveCutoff scip (SCIPheurGetData heur));
          repeat break_if; reflexivity|].
  split; [destruct (objectiveCutoff scip (SCIPheurGetData heur));
          repeat break_if; reflexivity|].
  split.
  - destruct (objectiveCutoff scip (SCIPheurGetData heur));
      repeat break_if; cbn; auto.
  - intros nm Hin Hfixed. cbn [In] in Hin.
    destruct Hin as [<- | [<- | [<- | [<- | [<- | []]]]]]; rewrite Hfixed;
      rewrite ?andb_false_r; cbn [negb];
      destruct (objectiveCutoff scip (SCIPheurGetData heur));
      repeat break_if; reflexivity.
Qed.


(** ** Ties and the first selection *)

Lemma epsGreedyLoop_ties (reward : Z -> Q) (nchoices : Z) :
  0 < nchoices ->
  (forall j : Z, 0 <= j < nchoices -> (reward j <= reward 0%Z)%Q) ->
  epsGreedyLoop reward (Z.to_nat (nchoices - 1)) 1 0 (reward 0) = 0.
Proof.
  intros Hn Hle.
  pose proof (epsGreedyLoop_firstMax reward (Z.to_nat (nchoices - 1)) 1 0) as H.
  replace (1 + Z.of_nat (Z.to_nat (nchoices - 1))) with nchoices in H by lia.
  destruct H as (Hr & _ & Hfirst).
  { repeat split; try lia. intros j Hj. replace j with 0 by lia. apply Qle_refl. }
  set (a := epsGreedyLoop reward (Z.to_nat (nchoices - 1)) 1 0 (reward 0)) in *.
  destruct (Z.eq_dec a 0) as [E|Hne]; [exact E|].
  exfalso. specialize (Hfirst 0 ltac:(lia)). specialize (Hle a Hr).
  exact (Qlt_not_le _ _ Hfirst Hle).
Qed.

(** X19.  Arm 0 wins every tie: when the draw is at most [eps] and no arm has a
    greater reward than arm 0, [epsGreedySelect] returns 0. *)
Theorem epsGreedySelect_ties {U : Type}
    (epsnchoices : U -> Z) (epsreward : U -> Z -> Q) (userptr : U) (epsgreedy : EPSGREEDY RNG) :
  0 < epsnchoices userptr ->
  (fst (SCIPrandomGetReal (epsgreedy_rng epsgreedy) 0%Q 1%Q) <= eps epsgreedy)%Q ->
  (forall j : Z, 0 <= j < epsnchoices userptr ->
     (epsreward userptr j <= epsreward userptr 0%Z)%Q) ->
  fst (epsGreedySelect epsnchoices epsreward userptr epsgreedy) = 0.
Proof.
  intros Hn Hu Hle. unfold epsGreedySelect.
  assert (E0 : (epsnchoices userptr =? 0) = false) by (apply Z.eqb_neq; lia).
  rewrite E0. destruct (SCIPrandomGetReal _ _ _) as [u rng]. cbn [fst] in Hu.
  apply Qle_bool_iff in Hu. rewrite Hu. cbn [fst].
  apply epsGreedyLoop_ties; assumption.
Qed.

(** ** Initialisation *)

Lemma list_set_outside {A : Type} (l : list A) (i : nat) (v : A) :
  (List.length l <= i)%nat -> list_set l i v = l.
Proof.
  revert i. induction l as [|h t IH]; intros [|i] H; simpl in *; try lia; auto.
  f_equal. apply IH. lia.
Qed.

(** The initialisation loop resets the neighborhoods it visits and leaves
    the others. *)
Lemma heurInitLoop_spec (n : nat) :
  forall (i : nat) (nhs : list (NH RNG)),
    List.length (heurInitLoop n i nhs) = List.length nhs /\
    (forall k : nat, (i <= k < i + n)%nat -> (k < List.length nhs)%nat ->
       let x := nth k nhs NH_null in
       let y := nth k (heurInitLoop n i nhs) NH_null in
       name y = name x /\ varfixings y = varfixings x /\
       fixingrate y = fixingRateReset (fixingrate x) /\
       stats y = neighborhoodStatsReset (stats x) /\
       data_mutation y
         = (if has_nhinit x then Some (mkDATA_MUTATION (SCIPrandomCreate MUTATIONSEED))
            else data_mutation x)) /\
    (forall k : nat, ~ (i <= k < i + n)%nat \/ (List.length nhs <= k)%nat ->
       nth k (heurInitLoop n i nhs) NH_null = nth k nhs NH_null).
Proof.
  induction n as [|n IH]; intros i nhs.
  - cbn. repeat split; auto; intros; lia.
  - cbn [heurInitLoop].
    match goal with
    | |- context [heurInitLoop n (S i) (list_set nhs i ?b)] =>
        set (body := b); destruct (IH (S i) (list_set nhs i body)) as (Hl & Hin & Hout)
    end.
    rewrite list_set_length in Hl, Hin, Hout.
    split; [exact Hl|]. split.
    + intros k Hk Hlen. cbv zeta.
      destruct (Nat.eq_dec k i) as [->|Hne].
      * rewrite Hout by lia. rewrite nth_list_set_same by lia.
        subst body. unfold neighborhoodInit, nhInitMutation.
        destruct (has_nhinit (nth i nhs NH_null)); cbn; repeat split; reflexivity.
      * specialize (Hin k ltac:(lia) Hlen). cbv zeta in Hin.
        rewrite nth_list_set_other in Hin by lia. exact Hin.
    + intros k Hk. rewrite Hout by lia.
      destruct (Nat.lt_ge_cases i (List.length nhs)) as [Hi|Hi].
      * apply nth_list_set_other. lia.
      * rewrite list_set_outside by lia. reflexivity.
Qed.

(** X20.  When the EXP3 selector exists already, [heurInitLns] returns, and
    afterwards every registered neighborhood has the fixing rate
    [(0, 0.25, 0.5)], so that [min <= target <= max]; its statistics are
    those of [neighborhoodStatsReset]; its reward is zero; its name and its
    callback are kept; and when it has an initialisation callback it owns a
    generator created from [MUTATIONSEED].  The heuristic has used no node
    and the EXP3 selector is the old one after [expThreeReset].
    Neighborhoods behind the registered ones are not touched. *)
Theorem heurInitLns_post
    (scip : SCIP) (heurdata : SCIP_HEURDATA RNG) (e : EXPTHREE RNG) (epsmem : Q) (k : Z) :
  exp3 heurdata = Some e ->
  nneighborhoods heurdata <= Z.of_nat (List.length (neighborhoods heurdata)) ->
  0 <= k < nneighborhoods heurdata ->
  exists hd' : SCIP_HEURDATA RNG,
    heurInitLns scip heurdata epsmem = Some hd' /\
    let x := nth (Z.to_nat k) (neighborhoods heurdata) NH_null in
    let y := nth (Z.to_nat k) (neighborhoods hd') NH_null in
    fixingrate y = mkNH_FIXINGRATE 0%Q (25 # 100)%Q (5 # 10)%Q /\
    (minfixingrate (fixingrate y) <= targetfixingrate (fixingrate y))%Q /\
    (targetfixingrate (fixingrate y) <= maxfixingrate (fixingrate y))%Q /\
    stats y = neighborhoodStatsReset (stats x) /\
    (epsRewardLns hd' k == 0)%Q /\
    name y = name x /\ varfixings y = varfixings x /\
    (has_nhinit x = true ->
     data_mutation y = Some (mkDATA_MUTATION (SCIPrandomCreate MUTATIONSEED))) /\
    heur_usednodes hd' = 0 /\
    exp3 hd' = Some (expThreeReset e) /\
    nneighborhoods hd' = nneighborhoods heurdata /\
    List.length (neighborhoods hd') = List.length (neighborhoods heurdata) /\
    (forall j : nat, (Z.to_nat (nneighborhoods heurdata) <= j)%nat ->
       nth j (neighborhoods hd') NH_null = nth j (neighborhoods heurdata) NH_null).
Proof.
  intros Hexp Hlen Hk. unfold heurInitLns. rewrite Hexp.
  eexists. split; [reflexivity|]. cbv zeta. unfold epsRewardLns.
  cbn [neighborhoods heur_usednodes nneighborhoods exp3].
  destruct (heurInitLoop_spec (Z.to_nat (nneighborhoods heurdata)) O (neighborhoods heurdata))
    as (Hl & Hin & Hout).
  specialize (Hin (Z.to_nat k) ltac:(lia) ltac:(lia)). cbv zeta in Hin.
  destruct Hin as (Hname & Hcb & Hfr & Hst & Hdata).
  rewrite Hfr, Hst, Hname, Hcb, Hdata.
  repeat split; auto.
  - cbn. discriminate.
  - cbn. discriminate.
  - intro Hinit. rewrite Hinit. reflexivity.
  - intros j Hj. apply Hout. lia.
Qed.

(** X21.  When the EXP3 selector exists already, the first greedy selection
    after [heurInitLns] is the first neighborhood: when the draw of the new
    generator is at most the [eps] found in memory, the selected index
    is 0. *)
Theorem heurInitLns_first_selection
    (scip : SCIP) (heurdata : SCIP_HEURDATA RNG) (e : EXPTHREE RNG)
    (epsmem : Q) (ncalls : Z) :
  exp3 heurdata = Some e ->
  0 < nneighborhoods heurdata ->
  nneighborhoods heurdata <= Z.of_nat (List.length (neighborhoods heurdata)) ->
  (fst (SCIPrandomGetReal (SCIPrandomCreate DEFAULT_INITSEED) 0%Q 1%Q) <= epsmem)%Q ->
  exists hd' : SCIP_HEURDATA RNG,
    heurInitLns scip heurdata epsmem = Some hd' /\
    selectedIndex (mkSCIP_HEUR hd' ncalls) = 0.
Proof.
  intros Hexp Hpos Hlen Hu. unfold heurInitLns. rewrite Hexp.
  eexists. split; [reflexivity|].
  unfold selectedIndex. cbn [SCIPheurGetData].
  unfold epsGreedySelect, epsNChoicesLns. cbn [nneighborhoods].
  assert (E0 : (nneighborhoods heurdata =? 0) = false) by (apply Z.eqb_neq; lia).
  rewrite E0. cbn [epsgreedynh epsGreedyCreate epsgreedy_rng eps].
  destruct (SCIPrandomGetReal _ _ _) as [u rng]. cbn [fst] in Hu.
  apply Qle_bool_iff in Hu. rewrite Hu. cbn [fst].
  apply epsGreedyLoop_ties; [exact Hpos|].
  match goal with
  | |- forall j : Z, _ -> (epsRewardLns ?h j <= epsRewardLns ?h 0)%Q => set (hd' := h)
  end.
  assert (Hzero : forall j : Z, 0 <= j < nneighborhoods heurdata ->
            epsRewardLns hd' j
            = double_div (int_to_real 0)
                (MAX 1 (int_to_real (int_wrap (0 * DEFAULT_BESTSOLWEIGHT))))).
  { intros j Hj. unfold epsRewardLns, hd'. cbn [neighborhoods].
    destruct (heurInitLoop_spec (Z.to_nat (nneighborhoods heurdata)) O
                (neighborhoods heurdata)) as (_ & Hin & _).
    specialize (Hin (Z.to_nat j) ltac:(lia) ltac:(lia)). cbv zeta in Hin.
    destruct Hin as (_ & _ & _ & Hst & _). rewrite Hst. reflexivity. }
  intros j Hj. rewrite (Hzero j Hj), (Hzero 0 ltac:(lia)). apply Qle_refl.
Qed.

Lemma varFixingsMutation_okay
    (scip : SCIP) (fr : NH_FIXINGRATE) (mutation : DATA_MUTATION RNG) (bufs : FIXINGS) :
  fst (varFixingsMutation scip fr (Some mutation) bufs) = SCIP_OKAY.
Proof.
  unfold varFixingsMutation.
  destruct (_ =? 0); [reflexivity|].
  destruct (SCIPgetBestSol scip); [|reflexivity].
  destruct (_ <=? _); [reflexivity|].
  destruct (mutationLoop _ _ _ _ _ _ _ _) as [[rng vars] b]. reflexivity.
Qed.

(** X22.  Registration.  With room for three neighborhoods,
    [includeNeighborhoods] leaves exactly RENS, RINS and mutation
    registered, in this order and under the names "rens", "rins", "muta",
    whatever the count and the entries were before, and it changes nothing
    else of the heuristic data.  It assigns neither the fixing rates, nor
    the statistics, nor the private data: they are what the allocated memory
    holds.  [neighborhoodInit] then gives the mutation neighborhood a
    generator created from [MUTATIONSEED] and leaves the two others as they
    are, after which the callback of the mutation neighborhood, called on
    its own data, does not fail. *)
Theorem includeNeighborhoods_registers
    (heurdata : SCIP_HEURDATA RNG) (memrens memrins memmuta : NH RNG) :
  List.length (neighborhoods heurdata) = 3%nat ->
  let hd' := includeNeighborhoods heurdata memrens memrins memmuta in
  let mems := [memrens; memrins; memmuta] in
  nneighborhoods hd' = NNEIGHBORHOODS /\
  map name (neighborhoods hd') = ["rens"%string; "rins"%string; "muta"%string] /\
  map varfixings (neighborhoods hd')
    = [Some varFixingsRens; Some varFixingsRins; Some varFixingsMutation] /\
  map has_nhinit (neighborhoods hd') = [false; false; true] /\
  map fixingrate (neighborhoods hd') = map fixingrate mems /\
  map stats (neighborhoods hd') = map stats mems /\
  map data_mutation (neighborhoods hd') = map data_mutation mems /\
  (epsgreedynh hd', exp3 hd', nodesoffset hd', maxnodes hd', minnodes hd',
   heur_usednodes hd', nodesquot hd', minimprove hd', lplimfac hd', nsolslim hd')
    = (epsgreedynh heurdata, exp3 heurdata, nodesoffset heurdata, maxnodes heurdata,
       minnodes heurdata, heur_usednodes heurdata, nodesquot heurdata,
       minimprove heurdata, lplimfac heurdata, nsolslim heurdata) /\
  map data_mutation (map neighborhoodInit (neighborhoods hd'))
    = [data_mutation memrens; data_mutation memrins;
       Some (mkDATA_MUTATION (SCIPrandomCreate MUTATIONSEED))] /\
  (forall (scip : SCIP) (bufs : FIXINGS),
     let muta := neighborhoodInit (nth 2 (neighborhoods hd') NH_null) in
     fst (varFixingsMutation scip (fixingrate muta) (data_mutation muta) bufs) = SCIP_OKAY).
Proof.
  intro Hlen. cbv zeta.
  destruct (neighborhoods heurdata) as [|a [|b [|c [|d rest]]]] eqn:Enh;
    cbn in Hlen; try discriminate.
  unfold includeNeighborhoods, lnsIncludeNeighborhood.
  cbn [neighborhoods nneighborhoods]. rewrite Enh.
  cbn. repeat split.
  intros scip bufs. apply varFixingsMutation_okay.
Qed.


End LnsMoreProofs.

(** * The further properties on concrete inputs *)

(** The reward of a neighborhood with twelve runs and a best-solution count
    of five. *)
Lemma epsRewardLns_range_witness :
  statsRewardInv (stats (nth (Z.to_nat 0) (neighborhoods heurdata_runs_ex) NH_null)) /\
  DEFAULT_BESTSOLWEIGHT
    * nruns (stats (nth (Z.to_nat 0) (neighborhoods heurdata_runs_ex) NH_null)) <= INT_MAX /\
  (0 <= epsRewardLns heurdata_runs_ex 0 <= 1)%Q /\
  (epsRewardLns heurdata_runs_ex 0 == double_round (5 # 36))%Q.
Proof.
  assert (H1 : statsRewardInv
                 (stats (nth (Z.to_nat 0) (neighborhoods heurdata_runs_ex) NH_null)))
    by (unfold statsRewardInv; cbn; lia).
  assert (H2 : DEFAULT_BESTSOLWEIGHT
               * nruns (stats (nth (Z.to_nat 0) (neighborhoods heurdata_runs_ex) NH_null))
               <= INT_MAX) by (vm_compute; discriminate).
  split; [exact H1 | split; [exact H2 | split;
    [exact (epsRewardLns_range heurdata_runs_ex 0 H1 H2) | vm_compute; reflexivity]]].
Defined.

(** The bound on the product is needed: after a thousand million runs the
    [int] product is negative, the denominator is 1 and the reward is the
    count of rewarded runs. *)
Example epsRewardLns_int_overflow :
  statsRewardInv (stats (nth (Z.to_nat 0) (neighborhoods heurdata_manyruns_ex) NH_null)) /\
  INT_MAX < DEFAULT_BESTSOLWEIGHT
            * nruns (stats (nth (Z.to_nat 0) (neighborhoods heurdata_manyruns_ex) NH_null)) /\
  (epsRewardLns heurdata_manyruns_ex 0 == 5)%Q.
Proof.
  split; [unfold statsRewardInv; cbn; lia | split; vm_compute; reflexivity].
Qed.

(** The invariant over one launched call. *)
Lemma heurExecLns_keeps_reward_invariant_witness :
  Forall (fun nh => statsRewardInv (stats nh)) (neighborhoods (SCIPheurGetData heur_ex)) /\
  Forall (fun nh => statsRewardInv (stats nh))
         (neighborhoods
            (SCIPheurGetData
               (snd (fst (snd (heurExecLns (rngops := replayRandNumGen)
                                           (solver := scriptedSolver) scip_ex heur_ex)))))).
Proof.
  assert (H1 : Forall (fun nh => statsRewardInv (stats nh))
                      (neighborhoods (SCIPheurGetData heur_ex))).
  { constructor; [|constructor]. unfold statsRewardInv. cbn. lia. }
  split; [exact H1|].
  exact (heurExecLns_keeps_reward_invariant (rngops := replayRandNumGen)
           (solver := scriptedSolver) scip_ex heur_ex H1).
Defined.


(** The mutation neighborhood selected: no sub-solve. *)
Lemma varFixingsMutation_never_launches_witness :
  varfixings (nth (Z.to_nat (selectedIndex (rngops := replayRandNumGen) heur_mutation_ex))
                  (neighborhoods (SCIPheurGetData heur_mutation_ex)) NH_null)
    = Some (varFixingsMutation (rngops := replayRandNumGen)) /\
  success (snd (snd (selectedFixings (rngops := replayRandNumGen) scip_ex heur_mutation_ex)))
    = false /\
  snd (snd (heurExecLns (rngops := replayRandNumGen) (solver := scriptedSolver)
              scip_ex heur_mutation_ex)) = SCIP_DIDNOTRUN.
Proof.
  assert (H1 : varfixings
                 (nth (Z.to_nat (selectedIndex (rngops := replayRandNumGen) heur_mutation_ex))
                      (neighborhoods (SCIPheurGetData heur_mutation_ex)) NH_null)
               = Some (varFixingsMutation (rngops := replayRandNumGen))) by reflexivity.
  destruct (varFixingsMutation_never_launches (rngops := replayRandNumGen)
              (solver := scriptedSolver) scip_ex heur_mutation_ex H1) as (Hs & _).
  split; [exact H1 | split; [exact Hs | reflexivity]].
Defined.

(** RENS on an LP that is integral at the variables 1 and 3. *)
Lemma varFixingsRens_fixes_integral_witness :
  hasCurrentNodeLP scip_int_ex = true /\
  lpsolstat_optimal scip_int_ex = true /\
  prob_nbinvars scip_int_ex + prob_nintvars scip_int_ex <> 0 /\
  prob_nbinvars scip_int_ex + prob_nintvars scip_int_ex
    <= Z.of_nat (List.length (prob_vars scip_int_ex)) /\
  nfixings bufs_ex = 0 /\
  List.length (varbuf bufs_ex) = List.length (prob_vars scip_int_ex) /\
  List.length (valbuf bufs_ex) = List.length (prob_vars scip_int_ex) /\
  nfixings (snd (snd (varFixingsRens (RNG := ReplayRng) scip_int_ex fixingrate_ex None bufs_ex)))
    = 2 /\
  firstn 2 (varbuf (snd (snd (varFixingsRens (RNG := ReplayRng) scip_int_ex fixingrate_ex
                                None bufs_ex))))
    = [1; 3]%nat.
Proof.
  assert (H3 : prob_nbinvars scip_int_ex + prob_nintvars scip_int_ex <> 0)
    by (cbn; discriminate).
  assert (H4 : prob_nbinvars scip_int_ex + prob_nintvars scip_int_ex
               <= Z.of_nat (List.length (prob_vars scip_int_ex))) by (cbn; lia).
  pose proof (varFixingsRens_fixes_integral (RNG := ReplayRng) scip_int_ex fixingrate_ex
                None bufs_ex eq_refl eq_refl H3 H4 eq_refl eq_refl eq_refl) as H.
  cbv zeta in H. destruct H as (_ & Hn & Hv & _).
  repeat split; try reflexivity; try assumption.
Defined.

(** RINS on the same LP with the incumbent that is one everywhere. *)
Lemma varFixingsRins_fixes_agreeing_witness :
  hasCurrentNodeLP scip_int_ex = true /\
  lpsolstat_optimal scip_int_ex = true /\
  SCIPgetBestSol scip_int_ex = Some incumbent_ex /\
  sol_origin_original incumbent_ex = false /\
  prob_nbinvars scip_int_ex + prob_nintvars scip_int_ex <> 0 /\
  prob_nbinvars scip_int_ex + prob_nintvars scip_int_ex
    <= Z.of_nat (List.length (prob_vars scip_int_ex)) /\
  nfixings bufs_ex = 0 /\
  List.length (varbuf bufs_ex) = List.length (prob_vars scip_int_ex) /\
  List.length (valbuf bufs_ex) = List.length (prob_vars scip_int_ex) /\
  success (snd (snd (varFixingsRins (RNG := ReplayRng) scip_int_ex fixingrate_ex None bufs_ex)))
    = true /\
  firstn 2 (varbuf (snd (snd (varFixingsRins (RNG := ReplayRng) scip_int_ex fixingrate_ex
                                None bufs_ex))))
    = [1; 3]%nat.
Proof.
  assert (H5 : prob_nbinvars scip_int_ex + prob_nintvars scip_int_ex <> 0)
    by (cbn; discriminate).
  assert (H6 : prob_nbinvars scip_int_ex + prob_nintvars scip_int_ex
               <= Z.of_nat (List.length (prob_vars scip_int_ex))) by (cbn; lia).
  pose proof (varFixingsRins_fixes_agreeing (RNG := ReplayRng) scip_int_ex fixingrate_ex
                None bufs_ex incumbent_ex eq_refl eq_refl eq_refl eq_refl H5 H6
                eq_refl eq_refl eq_refl) as H.
  cbv zeta in H. destruct H as (Hs & _ & Hv & _).
  repeat split; try reflexivity; try assumption.
Defined.

(** The shuffle on the four binary variables of the example. *)
Lemma varFixingsMutation_permutes_witness :
  RandomGetInt_in_range (rngops := replayRandNumGen) /\
  0 <= prob_nbinvars scip_ex + prob_nintvars scip_ex
    <= Z.of_nat (List.length (prob_vars scip_ex)) /\
  Permutation
    (prob_vars (fst (fst (snd (varFixingsMutation (rngops := replayRandNumGen) scip_ex
                                 fixingrate_ex (data_mutation mutation_ex) bufs_ex)))))
    (prob_vars scip_ex).
Proof.
  assert (H2 : 0 <= prob_nbinvars scip_ex + prob_nintvars scip_ex
               <= Z.of_nat (List.length (prob_vars scip_ex))) by (cbn; lia).
  pose proof (varFixingsMutation_permutes (rngops := replayRandNumGen) scip_ex fixingrate_ex
                (data_mutation mutation_ex) bufs_ex replayGetInt_in_range H2) as H.
  cbv zeta in H. destruct H as (_ & Hp & _).
  split; [exact replayGetInt_in_range | split; [exact H2 | exact Hp]].
Defined.

(** The shuffle fixes two distinct variables of the example. *)
Lemma varFixingsMutation_fixes_distinct_witness :
  RandomGetInt_in_range (rngops := replayRandNumGen) /\
  SCIPgetBestSol scip_ex = Some incumbent_ex /\
  (0 <= targetfixingrate fixingrate_ex)%Q /\
  real_to_longint (targetfixingrate fixingrate_ex * inject_Z (SCIPgetNVars scip_ex)) + 1
    < prob_nbinvars scip_ex + prob_nintvars scip_ex /\
  prob_nbinvars scip_ex + prob_nintvars scip_ex
    <= Z.of_nat (List.length (prob_vars scip_ex)) /\
  NoDup (prob_vars scip_ex) /\
  List.length (varbuf bufs_ex) = List.length (prob_vars scip_ex) /\
  List.length (valbuf bufs_ex) = List.length (prob_vars scip_ex) /\
  nfixings (snd (snd (varFixingsMutation (rngops := replayRandNumGen) scip_ex fixingrate_ex
                        (Some (mkDATA_MUTATION [(1 # 2)%Q; 0%Q])) bufs_ex))) = 2 /\
  NoDup (firstn 2 (varbuf (snd (snd (varFixingsMutation (rngops := replayRandNumGen) scip_ex
                                       fixingrate_ex
                                       (Some (mkDATA_MUTATION [(1 # 2)%Q; 0%Q]))
                                       bufs_ex))))).
Proof.
  assert (H3 : (0 <= targetfixingrate fixingrate_ex)%Q) by (cbn; discriminate).
  assert (H4 : real_to_longint
                 (targetfixingrate fixingrate_ex * inject_Z (SCIPgetNVars scip_ex)) + 1
               < prob_nbinvars scip_ex + prob_nintvars scip_ex) by reflexivity.
  assert (H5 : prob_nbinvars scip_ex + prob_nintvars scip_ex
               <= Z.of_nat (List.length (prob_vars scip_ex))) by (cbn; lia).
  assert (H6 : NoDup (prob_vars scip_ex)).
  { cbn. repeat constructor; cbn; intuition discriminate. }
  pose proof (varFixingsMutation_fixes_distinct (rngops := replayRandNumGen) scip_ex
                fixingrate_ex (mkDATA_MUTATION [(1 # 2)%Q; 0%Q]) bufs_ex incumbent_ex
                replayGetInt_in_range eq_refl H3 H4 H5 H6 eq_refl eq_refl) as H.
  cbv zeta in H. destruct H as (_ & Hn & _ & Hnd & _).
  split; [exact replayGetInt_in_range|].
  split; [reflexivity|]. split; [exact H3|]. split; [exact H4|]. split; [exact H5|].
  split; [exact H6|]. split; [reflexivity|]. split; [reflexivity|].
  split; [exact Hn | exact Hnd].
Defined.


(** A selection on the three uniform arms with a draw of zero. *)
Lemma expThreeSelectAction_spec_witness :
  exp3_rng exp3_ex = Some [] /\
  Z.of_nat (List.length (probabilities exp3_ex)) = nactions exp3_ex /\
  exists (a : Z) (exp3' : EXPTHREE ReplayRng),
    expThreeSelectAction (rngops := replayRandNumGen) exp3_ex = Some (a, exp3') /\
    0 <= a <= nactions exp3_ex /\
    ndraws exp3' = ndraws exp3_ex + 1.
Proof.
  destruct (expThreeSelectAction_spec (rngops := replayRandNumGen) exp3_ex [] eq_refl eq_refl)
    as (a & exp3' & Hsel & Hr & _ & _ & Hd & _).
  split; [reflexivity | split; [reflexivity|]].
  exists a, exp3'. split; [exact Hsel | split; [exact Hr | exact Hd]].
Defined.


(** Three arms with equal rewards: arm 0. *)
Lemma epsGreedySelect_ties_witness :
  0 < 3 /\
  (fst (SCIPrandomGetReal (RandNumGen := replayRandNumGen) [(1 # 2)%Q] 0%Q 1%Q) <= 1)%Q /\
  fst (epsGreedySelect (rngops := replayRandNumGen) (fun _ : unit => 3)
         (fun (_ : unit) (_ : Z) => (1 # 2)%Q) tt (mkEPSGREEDY 1%Q [(1 # 2)%Q])) = 0.
Proof.
  assert (H1 : 0 < 3) by lia.
  assert (H2 : (fst (SCIPrandomGetReal (RandNumGen := replayRandNumGen)
                       [(1 # 2)%Q] 0%Q 1%Q) <= 1)%Q) by (cbn; discriminate).
  split; [exact H1 | split; [exact H2|]].
  apply (epsGreedySelect_ties (rngops := replayRandNumGen) (fun _ : unit => 3)
           (fun (_ : unit) (_ : Z) => (1 # 2)%Q) tt (mkEPSGREEDY 1%Q [(1 # 2)%Q]) H1 H2).
  intros j _. apply Qle_refl.
Defined.

(** Initialisation of the heuristic for a second problem, with the used
    neighborhood. *)
Lemma heurInitLns_post_witness :
  exp3 heurdata_reinit_ex = Some exp3_ex /\
  nneighborhoods heurdata_reinit_ex
    <= Z.of_nat (List.length (neighborhoods heurdata_reinit_ex)) /\
  0 <= 0 < nneighborhoods heurdata_reinit_ex /\
  exists hd' : SCIP_HEURDATA ReplayRng,
    heurInitLns (seedops := replayRandNumSeed) scip_ex heurdata_reinit_ex 1%Q = Some hd' /\
    fixingrate (nth (Z.to_nat 0) (neighborhoods hd') NH_null)
      = mkNH_FIXINGRATE 0%Q (25 # 100)%Q (5 # 10)%Q /\
    heur_usednodes hd' = 0.
Proof.
  assert (H1 : nneighborhoods heurdata_reinit_ex
               <= Z.of_nat (List.length (neighborhoods heurdata_reinit_ex))) by (cbn; lia).
  assert (H2 : 0 <= 0 < nneighborhoods heurdata_reinit_ex) by (cbn; lia).
  destruct (heurInitLns_post (seedops := replayRandNumSeed) scip_ex heurdata_reinit_ex
              exp3_ex 1%Q 0 eq_refl H1 H2) as (hd' & Hinit & H).
  cbv zeta in H. destruct H as (Hfr & _ & _ & _ & _ & _ & _ & _ & Hu & _).
  split; [reflexivity | split; [exact H1 | split; [exact H2|]]].
  exists hd'. split; [exact Hinit | split; [exact Hfr | exact Hu]].
Defined.

(** The first selection after that initialisation, with [eps = 1] in
    memory. *)
Lemma heurInitLns_first_selection_witness :
  exp3 heurdata_reinit_ex = Some exp3_ex /\
  0 < nneighborhoods heurdata_reinit_ex /\
  nneighborhoods heurdata_reinit_ex
    <= Z.of_nat (List.length (neighborhoods heurdata_reinit_ex)) /\
  (fst (SCIPrandomGetReal (RandNumGen := replayRandNumGen)
          (SCIPrandomCreate (RandNumSeed := replayRandNumSeed) DEFAULT_INITSEED)
          0%Q 1%Q) <= 1)%Q /\
  exists hd' : SCIP_HEURDATA ReplayRng,
    heurInitLns (seedops := replayRandNumSeed) scip_ex heurdata_reinit_ex 1%Q = Some hd' /\
    selectedIndex (rngops := replayRandNumGen) (mkSCIP_HEUR hd' 0) = 0.
Proof.
  assert (H1 : 0 < nneighborhoods heurdata_reinit_ex) by reflexivity.
  assert (H2 : nneighborhoods heurdata_reinit_ex
               <= Z.of_nat (List.length (neighborhoods heurdata_reinit_ex))) by (cbn; lia).
  assert (H3 : (fst (SCIPrandomGetReal (RandNumGen := replayRandNumGen)
                       (SCIPrandomCreate (RandNumSeed := replayRandNumSeed)
                          DEFAULT_INITSEED) 0%Q 1%Q) <= 1)%Q) by (cbn; discriminate).
  split; [reflexivity | split; [exact H1 | split; [exact H2 | split; [exact H3|]]]].
  exact (heurInitLns_first_selection (rngops := replayRandNumGen)
           (seedops := replayRandNumSeed) scip_ex heurdata_reinit_ex exp3_ex 1%Q 0
           eq_refl H1 H2 H3).
Defined.

(** Registration on freshly allocated heuristic data. *)
Lemma includeNeighborhoods_registers_witness :
  List.length (neighborhoods heurdata_alloc_ex) = 3%nat /\
  map name
    (neighborhoods
       (includeNeighborhoods (rngops := replayRandNumGen) heurdata_alloc_ex
          nh_mem_ex nh_mem_ex nh_mem_ex))
    = ["rens"%string; "rins"%string; "muta"%string].
Proof.
  assert (H1 : List.length (neighborhoods heurdata_alloc_ex) = 3%nat) by reflexivity.
  pose proof (includeNeighborhoods_registers (rngops := replayRandNumGen)
                (seedops := replayRandNumSeed) heurdata_alloc_ex
                nh_mem_ex nh_mem_ex nh_mem_ex H1) as H.
  cbv zeta in H. destruct H as (_ & Hn & _).
  split; [exact H1 | exact Hn].
Defined.
